(** * asyncer: the resilience core, embedded and verified

    A shallow embedding of the retry engine ([retryAsync]), the timeout
    guard ([withTimeout]), the bounded-concurrency schedulers
    ([parallelLimit], [semaphore], [bulkhead]) and the [CircuitBreaker]
    state machine, together with the properties the specification states
    about them.

    Conventions of the embedding.
    - An [await] is a point where control returns to the event loop; code
      between two awaits runs atomically (single-threaded cooperative
      scheduling).  Every primitive is therefore modelled by the atomic
      steps between its suspension points, and a run is a sequence of such
      steps.
    - JavaScript numbers used as counters and millisecond timestamps are
      integers ([Z], or [nat] where the program only counts up from 0);
      retry delays and multipliers may be fractional and are exact
      rationals ([Q]).
    - Everything observable a primitive does besides returning (invoking
      the task, calling an observer, sleeping, arming or clearing a timer)
      is recorded in an event trace. *)

From Stdlib Require Import ZArith QArith Qminmax Qpower Lia Lqa String List Bool.
From Stdlib Require Import DecimalString.
From stdpp Require Import base list.
Import ListNotations.

Local Open Scope string_scope.
Local Open Scope list_scope.
Local Open Scope Z_scope.

(** ** JavaScript values that can be thrown, and completions *)

Module Js.

(** A value stored in the [details] object of an [ApiError]. *)
Inductive DetailValue : Type :=
| DString (s : string)
| DIsoDate (ms : Z).    (* new Date(ms).toISOString() *)

(** An [Error] instance.  [statusCode] is present exactly on [ApiError]
    instances (error.ts); a plain [Error] has none.  The creation
    timestamp and the stack of an [ApiError] are not modelled. *)
Record JsError : Type := mkJsError {
  name : string;
  message : string;
  statusCode : option Z;
  details : list (string * DetailValue)
}.

(** [new Error(message)] *)
Definition newError (msg : string) : JsError :=
  {| name := "Error"; message := msg; statusCode := None; details := [] |}.

(** [new ApiError(statusCode, message, details)] *)
Definition ApiError (code : Z) (msg : string)
    (det : list (string * DetailValue)) : JsError :=
  {| name := "ApiError"; message := msg; statusCode := Some code;
     details := det |}.

(** What a task may reject with: JavaScript lets any value be thrown. *)
Inductive Value : Type :=
| VUndefined
| VString (s : string)
| VError (e : JsError).

(** [error instanceof Error] *)
Definition instanceofError (x : Value) : bool :=
  match x with VError _ => true | _ => false end.

(** [String(x)]; for an error, [Error.prototype.toString]. *)
Definition String_ (x : Value) : string :=
  match x with
  | VUndefined => "undefined"
  | VString s => s
  | VError e =>
      if String.eqb (name e) "" then message e
      else if String.eqb (message e) "" then name e
      else (name e ++ ": " ++ message e)%string
  end.

(** Outcome of a call or of a settled promise. *)
Inductive Completion (T : Type) : Type :=
| Return (v : T)
| Throw (x : Value).
Arguments Return {T} v.
Arguments Throw {T} x.

End Js.
Import Js.

(** ** async.ts: [retryAsync] *)

Module Retry.

(** Observable events of one [retryAsync] call, in program order. *)
Inductive Event : Type :=
| EvCall (attempt : nat)                    (* fn() *)
| EvOnRetry (e : JsError) (attempt : nat)   (* onRetry(lastError, attempt + 1) *)
| EvSleep (ms : Q).                         (* await sleep(currentDelay) *)

(** [RetryOptions]; an absent optional field is [None].  [retries] is a
    non-negative integer.  The two callbacks are user code and may
    themselves throw. *)
Record RetryOptions : Type := mkRetryOptions {
  retries : nat;
  delay : option Q;
  backoffMultiplier : option Q;
  maxDelay : option Q;
  shouldRetry : option (JsError -> nat -> Completion bool);
  onRetry : option (JsError -> nat -> Completion unit)
}.

(** The destructuring defaults of [retryAsync]. *)
Definition delay_of (o : RetryOptions) : Q := default (1000 # 1)%Q (delay o).
Definition backoffMultiplier_of (o : RetryOptions) : Q :=
  default (1 # 1)%Q (backoffMultiplier o).
Definition maxDelay_of (o : RetryOptions) : Q :=
  default (30000 # 1)%Q (maxDelay o).
Definition shouldRetry_of (o : RetryOptions) : JsError -> nat -> Completion bool :=
  default (fun _ _ => Return true) (shouldRetry o).

(** [error instanceof Error ? error : new Error(String(error))] *)
Definition toError (x : Value) : JsError :=
  match x with
  | VError e => e
  | _ => newError (String_ x)
  end.

(** [Math.min(currentDelay * backoffMultiplier, maxDelay)].  Delays are
    exact rationals here, where the host computes with binary64
    numbers: the two agree whenever the product is a number the host
    represents exactly, as it is for a multiplier of 1 and for integer
    operands whose product stays within [Number.MAX_SAFE_INTEGER]; the
    statements about the values of the delays are made for such
    inputs. *)
Definition nextDelay (o : RetryOptions) (currentDelay : Q) : Q :=
  Qmin (currentDelay * backoffMultiplier_of o) (maxDelay_of o).

Section RetryAsync.
Context {T : Type}.

(** The task.  [fn i] is the outcome of its invocation number [i]
    (counting from 0); the loop invokes it once per attempt. *)
Variable fn : nat -> Completion T.
Variable o : RetryOptions.

(** The [for] loop.  [fuel] is the loop variant [retries + 1 - attempt]:
    the test [attempt <= retries] holds exactly when it is positive.
    The result pairs the completion with the events in program order. *)
Fixpoint retryLoop (fuel attempt : nat) (currentDelay : Q)
    (lastError : Value) : Completion T * list Event :=
  match fuel with
  | O => (Throw lastError, [])               (* throw lastError *)
  | S fuel' =>
      match fn attempt with
      | Return v => (Return v, [EvCall attempt])
      | Throw x =>
          let lastError := toError x in
          if Nat.eqb attempt (retries o) then
            (Throw (VError lastError), [EvCall attempt])
          else
            match shouldRetry_of o lastError attempt with
            | Throw y => (Throw y, [EvCall attempt])
            | Return false => (Throw (VError lastError), [EvCall attempt])
            | Return true =>
                let continue_ (pre : list Event) :=
                  let '(r, tr) :=
                    retryLoop fuel' (S attempt)
                      (nextDelay o currentDelay) (VError lastError) in
                  (r, pre ++ EvSleep currentDelay :: tr) in
                match onRetry o with
                | None => continue_ [EvCall attempt]
                | Some f =>
                    match f lastError (attempt + 1)%nat with
                    | Throw y =>
                        (Throw y,
                         [EvCall attempt; EvOnRetry lastError (attempt + 1)])
                    | Return _ =>
                        continue_
                          [EvCall attempt; EvOnRetry lastError (attempt + 1)]
                    end
                end
            end
      end
  end.

Definition retryAsync : Completion T * list Event :=
  retryLoop (S (retries o)) 0 (delay_of o) VUndefined.

End RetryAsync.

(** Projections of a trace. *)
Definition sleeps (tr : list Event) : list Q :=
  omap (fun ev => match ev with EvSleep d => Some d | _ => None end) tr.
Definition observed (tr : list Event) : list (JsError * nat) :=
  omap (fun ev => match ev with EvOnRetry e n => Some (e, n) | _ => None end) tr.
Definition calls (tr : list Event) : list nat :=
  omap (fun ev => match ev with EvCall i => Some i | _ => None end) tr.

(** The delay held in [currentDelay] at the start of attempt [k]. *)
Fixpoint delaySeq (o : RetryOptions) (k : nat) : Q :=
  match k with
  | O => delay_of o
  | S k' => nextDelay o (delaySeq o k')
  end.

(** *** Vocabulary for statements about a run *)

Section Vocabulary.
Context {T : Type}.
Variable fn : nat -> Completion T.
Variable o : RetryOptions.

(** The observer, when there is one, returns normally. *)
Definition observerOk (e : JsError) (n : nat) : Prop :=
  match onRetry o with
  | Some f => exists u, f e n = Return u
  | None => True
  end.

Definition observerEvents (e : JsError) (n : nat) : list Event :=
  match onRetry o with
  | Some _ => [EvOnRetry e n]
  | None => []
  end.

(** Attempt [i] failed with [x i] and the loop went on to retry. *)
Definition retried (x : nat -> Value) (i : nat) : Prop :=
  fn i = Throw (x i) /\ i <> retries o /\
  shouldRetry_of o (toError (x i)) i = Return true /\
  observerOk (toError (x i)) (i + 1).

(** Events of the retried attempts [a, a+1, .., a+k-1]. *)
Fixpoint attemptsTrace (x : nat -> Value) (a k : nat) (cd : Q) : list Event :=
  match k with
  | O => []
  | S k' =>
      EvCall a :: observerEvents (toError (x a)) (a + 1)
        ++ EvSleep cd :: attemptsTrace x (S a) k' (nextDelay o cd)
  end.

End Vocabulary.

(** Example inputs. *)
Definition failOnce : nat -> Completion unit :=
  fun i => match i with
           | O => Throw (VError (newError "down"))
           | _ => Return tt
           end.
Definition alwaysDown : nat -> Completion unit :=
  fun _ => Throw (VError (newError "down")).
Definition throwsString : nat -> Completion unit :=
  fun _ => Throw (VString "boom").
Definition failTwice : nat -> Completion Z :=
  fun i => match i with
           | O => Throw (VError (newError "e0"))
           | S O => Throw (VError (newError "e1"))
           | _ => Return 7
           end.
(** [{ retries: 1, delay: 5000, maxDelay: 1000 }] *)
Definition uncappedOptions : RetryOptions :=
  {| retries := 1; delay := Some (5000 # 1)%Q; backoffMultiplier := None;
     maxDelay := Some (1000 # 1)%Q; shouldRetry := None; onRetry := None |}.
(** [{ retries: 0 }] *)
Definition noRetry : RetryOptions :=
  {| retries := 0; delay := None; backoffMultiplier := None;
     maxDelay := None; shouldRetry := None; onRetry := None |}.
(** [{ retries: 3, delay: 100, onRetry: (err, attempt) => {..} }] *)
Definition observedOptions : RetryOptions :=
  {| retries := 3; delay := Some (100 # 1)%Q; backoffMultiplier := None;
     maxDelay := None; shouldRetry := None;
     onRetry := Some (fun _ _ => Return tt) |}.

End Retry.

(** ** async.ts: [withTimeout] *)

Module Timeout.

(** A timer handle as [setTimeout] returns it: a [Timeout] object in
    Node, a positive integer in browsers; truthy in both, so the test
    [if (timeoutId)] of the [finally] block always succeeds. *)
Definition TimerId : Type := positive.

Inductive Event : Type :=
| EvSetTimeout (id : TimerId) (ms : Z)   (* timeoutId = setTimeout(.., ms) *)
| EvTimerFired (id : TimerId)            (* the timer callback ran: reject(..) *)
| EvClearTimeout (id : TimerId).         (* clearTimeout(timeoutId) *)

(** [`Operation timed out after ${ms}ms`] *)
Definition defaultMessage (ms : Z) : string :=
  ("Operation timed out after " ++ NilZero.string_of_int (Z.to_int ms) ++ "ms")%string.

(** [message || `Operation timed out after ${ms}ms`]: an absent or empty
    message is falsy. *)
Definition messageOr (message : option string) (ms : Z) : string :=
  match message with
  | Some s => if String.eqb s "" then defaultMessage ms else s
  | None => defaultMessage ms
  end.

Definition timeoutError (message : option string) (ms : Z) : JsError :=
  ApiError 408 (messageOr message ms) [].

(** Which of the two raced promises settles first. *)
Inductive Winner : Type := TaskFirst | TimerFirst.

(** The longest delay the host's timers honour: [2^31 - 1] ms. *)
Definition TIMEOUT_MAX : Z := 2147483647.

(** The time after which the host runs the callback of
    [setTimeout(.., ms)]: a delay outside [1 .. TIMEOUT_MAX] is replaced
    by 1 ms (Node's timers). *)
Definition timerDelay (ms : Z) : Z :=
  if (1 <=? ms) && (ms <=? TIMEOUT_MAX) then ms else 1.

Section WithTimeout.
Context {T : Type}.

(** The raced promise: [Some (t, r)] settles with [r] at time [t] after
    the call (in ms, [t <= 0] for a promise already settled), [None]
    never settles.  [ms] is the argument as the caller passes it; the
    deadline timer falls due at time [timerDelay ms], which is at least
    1, so that a promise already settled always wins the race. *)
Variable promise : option (Z * Completion T).
Variable ms : Z.
Variable message : option string.
(** The handle the host returns for the deadline timer. *)
Variable timeoutId : TimerId.
(** When the promise settles in the very instant the timer falls due,
    the host's scheduler decides which reaction runs first. *)
Variable tieTaskFirst : bool.

(** [Promise.race([promise, timeoutPromise])] *)
Definition race : Winner :=
  match promise with
  | None => TimerFirst
  | Some (t, _) =>
      if t <? timerDelay ms then TaskFirst
      else if timerDelay ms <? t then TimerFirst
      else if tieTaskFirst then TaskFirst else TimerFirst
  end.

Definition withTimeout : Completion T * list Event :=
  match race, promise with
  | TaskFirst, Some (_, r) =>
      (r, [EvSetTimeout timeoutId ms; EvClearTimeout timeoutId])
  | _, _ =>
      (Throw (VError (timeoutError message ms)),
       [EvSetTimeout timeoutId ms; EvTimerFired timeoutId;
        EvClearTimeout timeoutId])
  end.

End WithTimeout.

(** The timers still armed after a trace: set, and neither cleared nor
    fired since. *)
Fixpoint armed (tr : list Event) (acc : list TimerId) : list TimerId :=
  match tr with
  | [] => acc
  | EvSetTimeout id _ :: tr' => armed tr' (acc ++ [id])
  | EvTimerFired id :: tr' => armed tr' (filter (fun j => negb (Pos.eqb j id)) acc)
  | EvClearTimeout id :: tr' => armed tr' (filter (fun j => negb (Pos.eqb j id)) acc)
  end.

(** [clearTimeout] was called on the handle. *)
Definition cleared (id : TimerId) (tr : list Event) : Prop :=
  In (EvClearTimeout id) tr.

End Timeout.

(** ** concurrency.ts: [semaphore] *)

Module Semaphore.

(** The closure state of one semaphore.  A queue entry is the [resolve]
    callback of a pending [acquire()] promise, identified here by the
    ticket of the [acquire] call that pushed it. *)
Record Sem : Type := mkSem {
  count : Z;
  queue : list nat
}.

(** [semaphore(limit)] *)
Definition semaphore : Sem := {| count := 0; queue := [] |}.

Section Ops.
Variable limit : Z.

(** [acquire()]; the boolean tells whether the returned promise is
    resolved on the spot. *)
Definition acquire (s : Sem) (ticket : nat) : Sem * bool :=
  if count s <? limit then
    ({| count := count s + 1; queue := queue s |}, true)
  else
    ({| count := count s; queue := queue s ++ [ticket] |}, false).

(** [release()]; returns the waiter it resolved, if any. *)
Definition release (s : Sem) : Sem * option nat :=
  match queue s with
  | next :: rest => ({| count := count s; queue := rest |}, Some next)
  | [] => ({| count := count s - 1; queue := [] |}, None)
  end.

(** [get available()] *)
Definition available (s : Sem) : Z := limit - count s.

(** [get pending()] *)
Definition pending (s : Sem) : nat := length (queue s).

(** Calls made on the semaphore, and what each one did. *)
Inductive Op : Type := Acquire (ticket : nat) | Release.
Inductive Obs : Type :=
| Acquired (ticket : nat)     (* acquire() resolved at once *)
| Enqueued (ticket : nat)     (* acquire() left pending *)
| Woke (ticket : nat)         (* release() resolved this waiter *)
| Decremented.                (* release() found the queue empty *)

Definition step (s : Sem) (op : Op) : Sem * Obs :=
  match op with
  | Acquire w =>
      let '(s', now) := acquire s w in
      (s', if now then Acquired w else Enqueued w)
  | Release =>
      let '(s', next) := release s in
      (s', match next with Some w => Woke w | None => Decremented end)
  end.

Fixpoint run (s : Sem) (ops : list Op) : Sem * list Obs :=
  match ops with
  | [] => (s, [])
  | op :: ops' =>
      let '(s1, ob) := step s op in
      let '(s2, obs) := run s1 ops' in
      (s2, ob :: obs)
  end.

End Ops.

(** Waiters in the order they were queued, and in the order they were
    resolved by [release]. *)
Definition arrivals (obs : list Obs) : list nat :=
  omap (fun ob => match ob with Enqueued w => Some w | _ => None end) obs.
Definition woken (obs : list Obs) : list nat :=
  omap (fun ob => match ob with Woke w => Some w | _ => None end) obs.
(** Every [acquire()] promise resolved so far, by either path. *)
Definition resolved (obs : list Obs) : list nat :=
  omap (fun ob => match ob with
                  | Acquired w | Woke w => Some w
                  | _ => None end) obs.

End Semaphore.

(** ** The bulkhead of the resilience module *)

Module Bulkhead.

(** [BulkheadOptions]; [maxQueue = None] is the default [Infinity]. *)
Record BulkheadOptions : Type := mkOptions {
  concurrency : Z;
  maxQueue : option Z
}.

(** The closure state of one bulkhead: the counter and the queue of the
    source, and the frames suspended at [await task()] (each runs its
    [finally] block when its task settles).  Tasks are identified by the
    ticket of the submission that brought them. *)
Record Bulk : Type := mkBulk {
  activeCount : Z;
  queue : list nat;
  inflight : list nat
}.

Definition init : Bulk := {| activeCount := 0; queue := []; inflight := [] |}.

Definition saturation : JsError := ApiError 429 "Bulkhead queue limit reached" [].

Inductive Admission : Type :=
| Started                 (* slot taken, task() invoked *)
| Queued                  (* pushed on the queue, task not invoked yet *)
| Rejected (e : JsError). (* thrown before the task is touched *)

Fixpoint remove_first (id : nat) (l : list nat) : list nat :=
  match l with
  | [] => []
  | x :: l' => if Nat.eqb x id then l' else x :: remove_first id l'
  end.

Section Ops.
Variable o : BulkheadOptions.

(** [queue.length >= maxQueue] *)
Definition queueFull (b : Bulk) : bool :=
  match maxQueue o with
  | Some q => Z.of_nat (length (queue b)) >=? q
  | None => false
  end.

(** The returned function, up to its first suspension point. *)
Definition submit (b : Bulk) (task : nat) : Bulk * Admission :=
  if activeCount b <? concurrency o then
    ({| activeCount := activeCount b + 1; queue := queue b;
        inflight := inflight b ++ [task] |}, Started)
  else if queueFull b then (b, Rejected saturation)
  else
    ({| activeCount := activeCount b; queue := queue b ++ [task];
        inflight := inflight b |}, Queued).

(** [processQueue()], up to its [await]; returns the entry it let in. *)
Definition processQueue (b : Bulk) : Bulk * option nat :=
  if (activeCount b >=? concurrency o) then (b, None)
  else
    match queue b with
    | [] => (b, None)
    | task :: rest =>
        ({| activeCount := activeCount b + 1; queue := rest;
            inflight := inflight b ++ [task] |}, Some task)
    end.

(** The [finally] block that runs when the in-flight task [task]
    settles: [activeCount--; processQueue()].  It is the same block on
    both paths (direct and queued) and does not look at how the task
    settled.  [None] when [task] is not in flight. *)
Definition settle (b : Bulk) (task : nat) : option (Bulk * option nat) :=
  if existsb (Nat.eqb task) (inflight b) then
    Some (processQueue
            {| activeCount := activeCount b - 1; queue := queue b;
               inflight := remove_first task (inflight b) |})
  else None.

Inductive Ev : Type :=
| Submit (task : nat)
| Settle (task : nat) (fulfilled : bool).

Inductive Obs : Type :=
| Submitted (task : nat) (a : Admission)
| Released (task : nat) (next : option nat).

Definition step (b : Bulk) (ev : Ev) : option (Bulk * Obs) :=
  match ev with
  | Submit task =>
      let '(b', a) := submit b task in Some (b', Submitted task a)
  | Settle task _ =>
      match settle b task with
      | Some (b', next) => Some (b', Released task next)
      | None => None
      end
  end.

Fixpoint run (b : Bulk) (evs : list Ev) : option (Bulk * list Obs) :=
  match evs with
  | [] => Some (b, [])
  | ev :: evs' =>
      match step b ev with
      | None => None
      | Some (b1, ob) =>
          match run b1 evs' with
          | None => None
          | Some (b2, obs) => Some (b2, ob :: obs)
          end
      end
  end.

End Ops.

(** Submissions in the order they were queued, and queue entries in the
    order a freed slot took them. *)
Definition queuedOrder (obs : list Obs) : list nat :=
  omap (fun ob => match ob with Submitted t Queued => Some t | _ => None end) obs.
Definition dequeuedOrder (obs : list Obs) : list nat :=
  omap (fun ob => match ob with Released _ (Some t) => Some t | _ => None end) obs.

(** What holds of every state the bulkhead can be in: the counter counts
    the frames in flight, never exceeds the capacity, and nobody waits
    while a slot is free. *)
Definition invariant (o : BulkheadOptions) (b : Bulk) : Prop :=
  activeCount b = Z.of_nat (length (inflight b)) /\
  activeCount b <= Z.max 0 (concurrency o) /\
  (queue b <> [] -> concurrency o <= activeCount b).

(** [{ concurrency: 1, maxQueue: 1 }] *)
Definition oneAndOne : BulkheadOptions :=
  {| concurrency := 1; maxQueue := Some 1 |}.

End Bulkhead.

(** ** The circuit breaker of the resilience module *)

Module CircuitBreaker.

Inductive CircuitBreakerState : Type := CLOSED | OPEN | HALF_OPEN.

(** [CircuitBreakerOptions]; an absent optional field is [None]. *)
Record CircuitBreakerOptions : Type := mkOptions {
  failureThreshold : Z;
  resetTimeout : Z;
  successThreshold : option Z;
  shouldTrip : option (Value -> Completion bool)
}.

(** The defaults the constructor spreads the options over. *)
Definition successThreshold_of (o : CircuitBreakerOptions) : Z :=
  default 2 (successThreshold o).
Definition shouldTrip_of (o : CircuitBreakerOptions) : Value -> Completion bool :=
  default (fun _ => Return true) (shouldTrip o).

(** The private fields. *)
Record Breaker : Type := mkBreaker {
  state : CircuitBreakerState;
  failureCount : Z;
  successCount : Z;
  lastFailureTime : Z
}.

(** Field initialisers of the class. *)
Definition new : Breaker :=
  {| state := CLOSED; failureCount := 0; successCount := 0;
     lastFailureTime := 0 |}.

Definition isOpen (b : Breaker) : bool :=
  match state b with OPEN => true | _ => false end.

Definition openError (b : Breaker) : JsError :=
  ApiError 503 "Circuit breaker is OPEN"
    [("code", DString "CIRCUIT_BREAKER_OPEN");
     ("lastFailure", DIsoDate (lastFailureTime b))].

Section Methods.
Variable o : CircuitBreakerOptions.

(** [trip()]; [now] is what [Date.now()] returns. *)
Definition trip (b : Breaker) (now : Z) : Breaker :=
  {| state := OPEN; failureCount := failureCount b;
     successCount := successCount b; lastFailureTime := now |}.

(** [reset()] *)
Definition reset (b : Breaker) : Breaker :=
  {| state := CLOSED; failureCount := 0; successCount := 0;
     lastFailureTime := lastFailureTime b |}.

(** [updateState()] *)
Definition updateState (b : Breaker) (now : Z) : Breaker :=
  if isOpen b && (now - lastFailureTime b >=? resetTimeout o) then
    {| state := HALF_OPEN; failureCount := failureCount b;
       successCount := 0; lastFailureTime := lastFailureTime b |}
  else b.

(** [getState()] *)
Definition getState (b : Breaker) (now : Z) : Breaker * CircuitBreakerState :=
  let b' := updateState b now in (b', state b').

(** [onSuccess()] *)
Definition onSuccess (b : Breaker) : Breaker :=
  match state b with
  | HALF_OPEN =>
      let b1 := {| state := state b; failureCount := failureCount b;
                   successCount := successCount b + 1;
                   lastFailureTime := lastFailureTime b |} in
      if successCount b1 >=? successThreshold_of o then reset b1 else b1
  | CLOSED =>
      {| state := state b; failureCount := 0;
         successCount := successCount b;
         lastFailureTime := lastFailureTime b |}
  | OPEN => b
  end.

(** [onFailure(error)]; the completion is [Throw] when the user's
    [shouldTrip] throws. *)
Definition onFailure (b : Breaker) (error : Value) (now : Z)
    : Breaker * Completion unit :=
  match shouldTrip_of o error with
  | Throw y => (b, Throw y)
  | Return false => (b, Return tt)
  | Return true =>
      match state b with
      | CLOSED =>
          let b1 := {| state := state b; failureCount := failureCount b + 1;
                       successCount := successCount b;
                       lastFailureTime := lastFailureTime b |} in
          (if failureCount b1 >=? failureThreshold o then trip b1 now else b1,
           Return tt)
      | HALF_OPEN => (trip b now, Return tt)
      | OPEN => (b, Return tt)
      end
  end.

(** What one [execute] call did. *)
Record Outcome (T : Type) : Type := mkOutcome {
  result : Completion T;   (* how the returned promise settles *)
  invoked : bool           (* whether task() was called *)
}.
Arguments mkOutcome {T}.

(** [execute(task)] up to [await task()]: either the synchronous
    rejection, or the task has been invoked. *)
Definition executeBegin (b : Breaker) (now : Z) : Breaker * option JsError :=
  let b1 := updateState b now in
  if isOpen b1 then (b1, Some (openError b1)) else (b1, None).

(** [execute(task)] from the settlement [r] of the awaited task on;
    [now] is the time of the settlement. *)
Definition executeSettle {T} (b : Breaker) (r : Completion T) (now : Z)
    : Breaker * Completion T :=
  match r with
  | Return v => (onSuccess b, Return v)
  | Throw x =>
      match onFailure b x now with
      | (b', Return _) => (b', Throw x)
      | (b', Throw y) => (b', Throw y)
      end
  end.

(** One whole [execute(task)] call with no other call on the breaker
    while the task runs.  [task] is the outcome of invoking the task,
    [t0] the time of the call, [t1] the time the task settles. *)
Definition execute {T} (b : Breaker) (t0 : Z) (task : Completion T) (t1 : Z)
    : Breaker * Outcome T :=
  match executeBegin b t0 with
  | (b1, Some e) => (b1, mkOutcome (Throw (VError e)) false)
  | (b1, None) =>
      let '(b2, r) := executeSettle b1 task t1 in
      (b2, mkOutcome r true)
  end.

(** A call as the caller sees it: its time, what the task would do, and
    when the task would settle. *)
Record Call (T : Type) : Type := mkCall {
  at_ : Z;
  task : Completion T;
  settledAt : Z
}.
Arguments mkCall {T}.
Arguments at_ {T}.
Arguments task {T}.
Arguments settledAt {T}.

(** A sequence of [execute] calls, one after the other. *)
Fixpoint executeAll {T} (b : Breaker) (cs : list (Call T))
    : Breaker * list (Outcome T) :=
  match cs with
  | [] => (b, [])
  | c :: cs' =>
      let '(b1, out) := execute b (at_ c) (task c) (settledAt c) in
      let '(b2, outs) := executeAll b1 cs' in
      (b2, out :: outs)
  end.

End Methods.

Arguments mkOutcome {T}.
Arguments result {T}.
Arguments invoked {T}.
Arguments mkCall {T}.
Arguments at_ {T}.
Arguments task {T}.
Arguments settledAt {T}.

(** *** Vocabulary and example inputs *)

(** The call ran the task and passed its outcome on unchanged. *)
Definition ran {T} (c : Call T) : Outcome T := mkOutcome (task c) true.

(** The call was rejected by a breaker that tripped at time [tripped]. *)
Definition rejectedOpen {T} (tripped : Z) : Outcome T :=
  mkOutcome
    (Throw (VError (ApiError 503 "Circuit breaker is OPEN"
                      [("code", DString "CIRCUIT_BREAKER_OPEN");
                       ("lastFailure", DIsoDate tripped)])))
    false.

Definition fails {T} (c : Call T) : Prop := exists x, task c = Throw x.
Definition succeeds {T} (c : Call T) : Prop := exists v, task c = Return v.
(** The failure of the call counts towards tripping. *)
Definition qualifies {T} (o : CircuitBreakerOptions) (c : Call T) : Prop :=
  exists x, task c = Throw x /\ shouldTrip_of o x = Return true.

(** [{ failureThreshold: 2, resetTimeout: 1000 }] *)
Definition twoStrikes : CircuitBreakerOptions :=
  {| failureThreshold := 2; resetTimeout := 1000;
     successThreshold := None; shouldTrip := None |}.
(** [{ failureThreshold: 1, resetTimeout: 1000,
       shouldTrip: (e) => !(e?.statusCode < 500) }]: client errors do not
    count against the dependency. *)
Definition tripOnServerErrors : CircuitBreakerOptions :=
  {| failureThreshold := 1; resetTimeout := 1000;
     successThreshold := None;
     shouldTrip :=
       Some (fun x => match x with
                      | VError {| statusCode := Some c |} =>
                          Return (negb (c <? 500))
                      | _ => Return true
                      end) |}.
Definition down : Completion Z := Throw (VError (newError "down")).
Definition notFound : Completion Z := Throw (VError (ApiError 404 "Not Found" [])).
(** The breaker [twoStrikes] after two failures, the second at time 3. *)
Definition trippedAt3 : Breaker :=
  {| state := OPEN; failureCount := 2; successCount := 0;
     lastFailureTime := 3 |}.

End CircuitBreaker.

(** ** concurrency.ts: [parallelLimit] *)

Module ParallelLimit.

(** One [runNext()] activation: suspended at [await task()] for the
    index it claimed, returned, or rejected. *)
Inductive Worker : Type :=
| Awaiting (index : nat)
| Finished
| Failed (x : Value).

Definition isFinished (w : Worker) : bool :=
  match w with Finished => true | _ => false end.

Section Run.
Context {T : Type}.

(** [tasks[i]] is given by the outcome of its (single) invocation. *)
Variable tasks : list (Completion T).

(** The variables shared by the workers, the workers themselves, the
    indices whose task has been invoked (in invocation order), and the
    first rejection [Promise.all] has seen. *)
Record State : Type := mkState {
  currentIndex : nat;
  results : list (option T);     (* new Array(n): a hole is None *)
  workers : list Worker;
  invokedLog : list nat;
  rejected : option Value
}.

(** The head of the [while] loop of [runNext], up to the [await]:
    claim the next index and invoke its task, or return. *)
Definition loopHead (st : State) : State * Worker :=
  if (currentIndex st <? length tasks)%nat then
    ({| currentIndex := S (currentIndex st);
        results := results st;
        workers := workers st;
        invokedLog := invokedLog st ++ [currentIndex st];
        rejected := rejected st |},
     Awaiting (currentIndex st))
  else (st, Finished).

(** One more element of [Array.from({length}, () => runNext())]. *)
Definition spawn (st : State) : State :=
  let '(st', wk) := loopHead st in
  {| currentIndex := currentIndex st'; results := results st';
     workers := workers st' ++ [wk];
     invokedLog := invokedLog st'; rejected := rejected st' |}.

(** [Math.min(limit, tasks.length)] as an array length. *)
Definition workerCount (limit : Z) : nat :=
  Z.to_nat (Z.min limit (Z.of_nat (length tasks))).

(** The state when [parallelLimit] reaches [await Promise.all(workers)]. *)
Definition start (limit : Z) : State :=
  Nat.iter (workerCount limit) spawn
    {| currentIndex := 0; results := replicate (length tasks) None;
       workers := []; invokedLog := []; rejected := None |}.

(** The task awaited by worker [w] settles and the worker runs on to
    its next suspension point.  [None] when [w] is not suspended. *)
Definition resume (st : State) (w : nat) : option State :=
  match workers st !! w with
  | Some (Awaiting index) =>
      match tasks !! index with
      | Some (Return v) =>
          let st1 := {| currentIndex := currentIndex st;
                        results := <[index := Some v]> (results st);
                        workers := workers st;
                        invokedLog := invokedLog st;
                        rejected := rejected st |} in
          let '(st2, wk) := loopHead st1 in
          Some {| currentIndex := currentIndex st2; results := results st2;
                  workers := <[w := wk]> (workers st2);
                  invokedLog := invokedLog st2; rejected := rejected st2 |}
      | Some (Throw x) =>
          Some {| currentIndex := currentIndex st; results := results st;
                  workers := <[w := Failed x]> (workers st);
                  invokedLog := invokedLog st;
                  rejected := match rejected st with
                              | Some y => Some y
                              | None => Some x
                              end |}
      | None => None
      end
  | _ => None
  end.

(** A schedule names, step by step, the worker whose task settles
    next: the completion order of the tasks. *)
Fixpoint run (st : State) (sched : list nat) : option State :=
  match sched with
  | [] => Some st
  | w :: sched' =>
      match resume st w with
      | Some st' => run st' sched'
      | None => None
      end
  end.

(** How the promise returned by [parallelLimit] has settled, if it has:
    rejected with the first rejection, or fulfilled with [results] once
    every worker has returned. *)
Definition outcome (st : State) : option (Completion (list (option T))) :=
  match rejected st with
  | Some x => Some (Throw x)
  | None =>
      if forallb isFinished (workers st) then Some (Return (results st))
      else None
  end.

(** The indices some worker is suspended on. *)
Definition awaited (st : State) : list nat :=
  omap (fun w => match w with Awaiting i => Some i | _ => None end)
       (workers st).

End Run.

Arguments State : clear implicits.

(** What holds of every state of a run in which all tasks succeed, task
    [i] producing [values[i]]: the cursor stays within the task list and
    has handed out exactly the indices below it, in order; a suspended
    worker holds an index below the cursor; the slot of every index that
    was handed out and is no longer awaited holds that task's value; a
    worker returns only once the cursor has reached the end; nothing was
    rejected. *)
Definition invariant {T} (values : list T) (st : State T) : Prop :=
  length (results st) = length values /\
  (currentIndex st <= length values)%nat /\
  invokedLog st = seq 0 (currentIndex st) /\
  (forall w i, workers st !! w = Some (Awaiting i) -> (i < currentIndex st)%nat) /\
  (forall i v, (i < currentIndex st)%nat -> values !! i = Some v ->
     (forall w, workers st !! w <> Some (Awaiting i)) ->
     results st !! i = Some (Some v)) /\
  (forall w, workers st !! w = Some Finished ->
     currentIndex st = length values) /\
  (forall w x, workers st !! w <> Some (Failed x)) /\
  rejected st = None.

(** Three tasks; with two workers, [slowFirst] lets task 1 finish
    before task 0. *)
Definition threeValues : list Z := [10; 20; 30].
Definition slowFirst : list nat := [1; 1; 0]%nat.

End ParallelLimit.

(** ** concurrency.ts: [sequence], [pipeline], [batch], [raceSuccess] *)

Module Combinators.

Section Sequence.
Context {T : Type}.

(** The [for .. of] loop of [sequence] over the tasks not yet run.
    A task is given by the outcome of its invocation; [index] is the
    position of the first remaining task.  The result pairs the
    completion with the positions of the tasks that were invoked. *)
Fixpoint sequenceFrom (tasks : list (Completion T)) (index : nat)
    (results : list T) : Completion (list T) * list nat :=
  match tasks with
  | [] => (Return results, [])
  | task :: rest =>
      match task with
      | Return result =>
          let '(r, tr) := sequenceFrom rest (S index) (results ++ [result]) in
          (r, index :: tr)
      | Throw x => (Throw x, [index])
      end
  end.

Definition sequence (tasks : list (Completion T)) : Completion (list T) * list nat :=
  sequenceFrom tasks 0 [].

(** [pipeline(input, tasks)]; a stage maps its input to the outcome of
    its invocation.  The result pairs the completion with the inputs the
    invoked stages received. *)
Fixpoint pipeline (input : T) (tasks : list (T -> Completion T))
    : Completion T * list T :=
  match tasks with
  | [] => (Return input, [])
  | task :: rest =>
      match task input with
      | Return result =>
          let '(r, tr) := pipeline result rest in (r, input :: tr)
      | Throw x => (Throw x, [input])
      end
  end.

End Sequence.

(** [Array.prototype.slice(start, end)] on integer arguments: a negative
    index counts from the end, everything is clamped to the array. *)
Definition relativeIndex (len : Z) (i : Z) : Z :=
  if i <? 0 then Z.max (len + i) 0 else Z.min i len.

Definition slice {A} (items : list A) (start end_ : Z) : list A :=
  let len := Z.of_nat (length items) in
  let k := relativeIndex len start in
  let final := relativeIndex len end_ in
  take (Z.to_nat (Z.max (final - k) 0)) (drop (Z.to_nat k) items).

Section Batch.
Context {A B : Type}.
Variable batchSize : Z.
(** [processor call chunk] is the outcome of invocation number [call]
    of the processor, on [chunk]. *)
Variable processor : nat -> list A -> Completion (list B).
Variable items : list A.

(** The [for (let i = 0; i < items.length; i += batchSize)] loop.  The
    loop need not terminate, so it runs on [fuel] iterations and yields
    [None] when they do not suffice.  The result pairs the completion
    with the chunks handed to the processor. *)
Fixpoint batchLoop (fuel : nat) (i : Z) (call : nat) (results : list B)
    : option (Completion (list B) * list (list A)) :=
  match fuel with
  | O => None
  | S fuel' =>
      if i <? Z.of_nat (length items) then
        let chunk := slice items i (i + batchSize) in
        match processor call chunk with
        | Return chunkResults =>
            match batchLoop fuel' (i + batchSize) (S call)
                    (results ++ chunkResults) with
            | Some (r, chunks) => Some (r, chunk :: chunks)
            | None => None
            end
        | Throw x => Some (Throw x, [chunk])
        end
      else Some (Return results, [])
  end.

(** The function [batch(batchSize, processor)] returns, applied to
    [items]. *)
Definition batch (fuel : nat) : option (Completion (list B) * list (list A)) :=
  batchLoop fuel 0 0 [].

End Batch.

(** Number of chunks of size [size] covering [n] items. *)
Definition chunkCount (n : nat) (size : Z) : nat :=
  Z.to_nat ((Z.of_nat n + size - 1) / size).

(** Chunk number [j]: the items at positions [j*size .. (j+1)*size - 1]. *)
Definition chunkAt {A} (items : list A) (size : Z) (j : nat) : list A :=
  take (Z.to_nat size) (drop (j * Z.to_nat size) items).

(** The outputs of a processor that succeeds, call by call. *)
Fixpoint outputs {A B} (g : nat -> list A -> list B) (call : nat)
    (chunks : list (list A)) : list B :=
  match chunks with
  | [] => []
  | c :: cs => g call c ++ outputs g (S call) cs
  end.

Section RaceSuccess.
Context {T : Type}.

(** How the promise returned by [raceSuccess] settled: resolved with a
    value, or rejected with an [Error] that may carry an [errors]
    array (a hole of the array is [None]). *)
Inductive Settled : Type :=
| Resolved (v : T)
| RejectedWith (e : JsError) (errors : option (list (option Value))).

(** [errors[index] = error] on a JavaScript array: writing past the end
    extends the array, leaving holes. *)
Definition arraySet (errors : list (option Value)) (index : nat) (x : Value)
    : list (option Value) :=
  if (index <? length errors)%nat then <[index := Some x]> errors
  else errors ++ replicate (index - length errors) None ++ [Some x].

(** The variables of one [raceSuccess] call. *)
Record Race : Type := mkRace {
  errors : list (option Value);
  remaining : Z;
  settled : option Settled
}.

(** [resolve] and [reject] settle the promise only the first time. *)
Definition settleWith (r : Race) (s : Settled) : Race :=
  {| errors := errors r; remaining := remaining r;
     settled := match settled r with Some s0 => Some s0 | None => Some s end |}.

Variable tasks : list (Completion T).

(** The executor, up to the end of [tasks.forEach]: every task has been
    invoked. *)
Definition raceStart : Race :=
  let r := {| errors := []; remaining := Z.of_nat (length tasks);
              settled := None |} in
  if remaining r =? 0 then
    settleWith r (RejectedWith (newError "No tasks provided") None)
  else r.

(** The promise of task [index] settles: [.then(resolve)], or the
    [.catch] callback.  [None] when there is no such task. *)
Definition raceSettle (r : Race) (index : nat) : option Race :=
  match tasks !! index with
  | Some (Return v) => Some (settleWith r (Resolved v))
  | Some (Throw error) =>
      let r1 := {| errors := arraySet (errors r) index error;
                   remaining := remaining r - 1;
                   settled := settled r |} in
      if remaining r1 =? 0 then
        Some (settleWith r1 (RejectedWith (newError "All tasks failed")
                                          (Some (errors r1))))
      else Some r1
  | None => None
  end.

(** The task promises settle in the order [order]. *)
Fixpoint raceRun (r : Race) (order : list nat) : option Race :=
  match order with
  | [] => Some r
  | index :: order' =>
      match raceSettle r index with
      | Some r' => raceRun r' order'
      | None => None
      end
  end.

Definition raceSuccess (order : list nat) : option Race :=
  raceRun raceStart order.

End RaceSuccess.

Arguments Settled : clear implicits.
Arguments Race : clear implicits.

End Combinators.

(** ** async.ts: [retry], [once], [debounce] *)

Module AsyncMore.
Import Retry.

(** [retry(fn, retries, delay = 1000)]: [retryAsync(fn, { retries, delay })]. *)
Definition retry {T} (fn : nat -> Completion T) (retries : nat)
    (delay : option Q) : Completion T * list Event :=
  retryAsync fn
    {| Retry.retries := retries;
       Retry.delay := Some (default (1000 # 1)%Q delay);
       backoffMultiplier := None; maxDelay := None;
       shouldRetry := None; onRetry := None |}.







Section Once.
Context {T : Type}.

(** The closure variables of [once(fn)], and the number of times [fn]
    has been invoked.  [result = None] is the unassigned variable. *)
Record OnceState : Type := mkOnce {
  executed : bool;
  result : option T;
  invocations : nat
}.

Definition onceInit : OnceState :=
  {| executed := false; result := None; invocations := 0 |}.

(** [fn k] is the outcome of invocation number [k] of the wrapped
    function. *)
Variable fn : nat -> Completion T.

(** A call of the wrapper up to its suspension point: it returns the
    cached [result] ([Some]), or invokes [fn] and awaits it ([None]). *)
Definition onceBegin (st : OnceState) : OnceState * option (option T) :=
  if negb (executed st) then
    ({| executed := executed st; result := result st;
        invocations := S (invocations st) |}, None)
  else (st, Some (result st)).

(** The awaited invocation settles with [r]: [result = ..; executed =
    true; return result], or the rejection passes through. *)
Definition onceSettle (st : OnceState) (r : Completion T)
    : OnceState * Completion (option T) :=
  match r with
  | Return v =>
      ({| executed := true; result := Some v;
          invocations := invocations st |}, Return (Some v))
  | Throw x => (st, Throw x)
  end.

(** One call of the wrapper with no other call while it runs. *)
Definition onceCall (st : OnceState) : OnceState * Completion (option T) :=
  match onceBegin st with
  | (st1, Some cached) => (st1, Return cached)
  | (st1, None) => onceSettle st1 (fn (invocations st))
  end.

(** [n] calls, one after the other. *)
Fixpoint onceCalls (st : OnceState) (n : nat)
    : OnceState * list (Completion (option T)) :=
  match n with
  | O => (st, [])
  | S n' =>
      let '(st1, r) := onceCall st in
      let '(st2, rs) := onceCalls st1 n' in
      (st2, r :: rs)
  end.

(** Overlapping calls: a call begins, or the invocation number [k]
    started earlier settles. *)
Inductive OnceEv : Type := OnceBegin | OnceSettle (k : nat).

Definition onceStep (st : OnceState) (ev : OnceEv)
    : OnceState * option (Completion (option T)) :=
  match ev with
  | OnceBegin =>
      match onceBegin st with
      | (st1, Some cached) => (st1, Some (Return cached))
      | (st1, None) => (st1, None)
      end
  | OnceSettle k =>
      let '(st1, r) := onceSettle st (fn k) in (st1, Some r)
  end.

Fixpoint onceRun (st : OnceState) (evs : list OnceEv)
    : OnceState * list (option (Completion (option T))) :=
  match evs with
  | [] => (st, [])
  | ev :: evs' =>
      let '(st1, ob) := onceStep st ev in
      let '(st2, obs) := onceRun st1 evs' in
      (st2, ob :: obs)
  end.

End Once.

Arguments OnceState : clear implicits.

Section Debounce.
Context {A R : Type}.

(** The closure variables of one debounced function ([pendingResolve]
    and [pendingReject] are the functions of [pendingPromise]: the three
    are set and cleared together), and the host's side: the timers that
    are armed, each with the arguments its callback captured, the
    invocations of [fn] under way, and what each promise handed out was
    settled with.  Promises and invocations are numbered from 0, timer
    handles are the host's (truthy). *)
Record Deb : Type := mkDeb {
  timeoutId : option Timeout.TimerId;
  pendingPromise : option nat;
  armed : list (Timeout.TimerId * A);
  running : list (nat * A);
  nextTimer : Timeout.TimerId;
  nextPromise : nat;
  started : nat;
  delivered : list (nat * Completion R)
}.

Definition debInit : Deb :=
  {| timeoutId := None; pendingPromise := None; armed := []; running := [];
     nextTimer := 1%positive; nextPromise := 0; started := 0;
     delivered := [] |}.

(** [fn k args] is the outcome of invocation number [k] of the wrapped
    function, called on [args]. *)
Variable fn : nat -> A -> Completion R.

(** [clearTimeout(id)] *)
Definition clearTimer (id : Timeout.TimerId) (l : list (Timeout.TimerId * A))
    : list (Timeout.TimerId * A) :=
  List.filter (fun e => negb (Pos.eqb (fst e) id)) l.

(** A call of the debounced function with [args]; returns the promise. *)
Definition debCall (d : Deb) (args : A) : Deb * nat :=
  let armed1 := match timeoutId d with
                | Some id => clearTimer id (armed d)
                | None => armed d
                end in
  let '(pending, next) :=
    match pendingPromise d with
    | Some p => (p, nextPromise d)
    | None => (nextPromise d, S (nextPromise d))
    end in
  ({| timeoutId := Some (nextTimer d);
      pendingPromise := Some pending;
      armed := armed1 ++ [(nextTimer d, args)];
      running := running d;
      nextTimer := Pos.succ (nextTimer d);
      nextPromise := next;
      started := started d;
      delivered := delivered d |}, pending).

(** The timer [id] fires: its callback invokes [fn] on the captured
    arguments and awaits it.  [None] when the timer is not armed. *)
Definition debFire (d : Deb) (id : Timeout.TimerId) : option (Deb * (nat * A)) :=
  match find (fun e => Pos.eqb (fst e) id) (armed d) with
  | Some (_, args) =>
      Some ({| timeoutId := timeoutId d;
               pendingPromise := pendingPromise d;
               armed := clearTimer id (armed d);
               running := running d ++ [(started d, args)];
               nextTimer := nextTimer d;
               nextPromise := nextPromise d;
               started := S (started d);
               delivered := delivered d |}, (started d, args))
  | None => None
  end.

(** Invocation [k] settles: [pendingResolve?.(result)] or
    [pendingReject?.(error)], then the [finally] block.  Returns the
    promise that received the outcome, if any.  [None] when invocation
    [k] is not under way. *)
Definition debSettle (d : Deb) (k : nat) : option (Deb * option nat) :=
  match find (fun e => Nat.eqb (fst e) k) (running d) with
  | Some (_, args) =>
      Some ({| timeoutId := timeoutId d;
               pendingPromise := None;
               armed := armed d;
               running := List.filter (fun e => negb (Nat.eqb (fst e) k))
                                      (running d);
               nextTimer := nextTimer d;
               nextPromise := nextPromise d;
               started := started d;
               delivered := match pendingPromise d with
                            | Some p => delivered d ++ [(p, fn k args)]
                            | None => delivered d
                            end |},
            pendingPromise d)
  | None => None
  end.

(** A burst of calls with no timer firing in between; returns the
    promise each call got. *)
Fixpoint debCalls (d : Deb) (argss : list A) : Deb * list nat :=
  match argss with
  | [] => (d, [])
  | args :: rest =>
      let '(d1, p) := debCall d args in
      let '(d2, ps) := debCalls d1 rest in
      (d2, p :: ps)
  end.

End Debounce.

Arguments Deb : clear implicits.

End AsyncMore.

(** ** More vocabulary for the schedulers and the breaker *)

Module SchedulersMore.








(** The array [parallelLimit] returns for the values [sequence] returns. *)
Definition withHoles {T} (c : Completion (list T)) : Completion (list (option T)) :=
  match c with
  | Return vs => Return (map Some vs)
  | Throw x => Throw x
  end.

(** The bulkhead did not invoke a task at this step. *)
Definition nothingInvoked (ob : Bulkhead.Obs) : Prop :=
  match ob with
  | Bulkhead.Submitted _ Bulkhead.Queued => True
  | Bulkhead.Submitted _ (Bulkhead.Rejected e) => e = Bulkhead.saturation
  | _ => False
  end.

Import CircuitBreaker.

(** What happens on a breaker when calls overlap: a call begins, or the
    task of a call begun earlier settles. *)
Inductive BreakerEv (T : Type) : Type :=
| CallBegins (now : Z)
| TaskSettles (r : Completion T) (now : Z).
Arguments CallBegins {T}.
Arguments TaskSettles {T}.

Inductive BreakerObs (T : Type) : Type :=
| RejectedFast (e : JsError)
| TaskInvoked
| CallSettled (r : Completion T).
Arguments RejectedFast {T}.
Arguments TaskInvoked {T}.
Arguments CallSettled {T}.

Definition breakerStep {T} (o : CircuitBreakerOptions) (b : Breaker)
    (ev : BreakerEv T) : Breaker * BreakerObs T :=
  match ev with
  | CallBegins now =>
      match executeBegin o b now with
      | (b1, Some e) => (b1, RejectedFast e)
      | (b1, None) => (b1, TaskInvoked)
      end
  | TaskSettles r now =>
      let '(b1, r') := executeSettle o b r now in (b1, CallSettled r')
  end.

Fixpoint breakerRun {T} (o : CircuitBreakerOptions) (b : Breaker)
    (evs : list (BreakerEv T)) : Breaker * list (BreakerObs T) :=
  match evs with
  | [] => (b, [])
  | ev :: evs' =>
      let '(b1, ob) := breakerStep o b ev in
      let '(b2, obs) := breakerRun o b1 evs' in
      (b2, ob :: obs)
  end.

(** A call that begins within the reset window counted from [tripped];
    settlements are not constrained. *)
Definition withinWindow {T} (o : CircuitBreakerOptions) (tripped : Z)
    (ev : BreakerEv T) : Prop :=
  match ev with
  | CallBegins now => now - tripped < resetTimeout o
  | TaskSettles _ _ => True
  end.

(** What an open breaker answers to the event. *)
Definition openAnswer {T} (o : CircuitBreakerOptions) (tripped : Z)
    (ev : BreakerEv T) : BreakerObs T :=
  match ev with
  | CallBegins _ =>
      RejectedFast (ApiError 503 "Circuit breaker is OPEN"
                      [("code", DString "CIRCUIT_BREAKER_OPEN");
                       ("lastFailure", DIsoDate tripped)])
  | TaskSettles (Return v) _ => CallSettled (Return v)
  | TaskSettles (Throw x) _ =>
      CallSettled (match shouldTrip_of o x with
                   | Throw y => Throw y
                   | Return _ => Throw x
                   end)
  end.

(** Two breakers that differ only in fields the code will not read
    before overwriting them: the trip time of a closed breaker, and the
    success count outside HALF_OPEN. *)
Definition sameBehaviour (b b' : Breaker) : Prop :=
  state b = state b' /\
  failureCount b = failureCount b' /\
  (state b <> CLOSED -> lastFailureTime b = lastFailureTime b') /\
  (state b = HALF_OPEN -> successCount b = successCount b').

End SchedulersMore.

(** * Properties *)

(** ** [retryAsync] *)

Module RetryFacts.
Import Retry.

Section Facts.
Context {T : Type}.
Variable fn : nat -> Completion T.
Variable o : RetryOptions.

Lemma retryLoop_lastError fuel a cd le le' :
  retryLoop fn o (S fuel) a cd le = retryLoop fn o (S fuel) a cd le'.
Proof. reflexivity. Qed.

Lemma retryLoop_success fuel a cd le v :
  fn a = Return v ->
  retryLoop fn o (S fuel) a cd le = (Return v, [EvCall a]).
Proof. intros H. simpl. rewrite H. reflexivity. Qed.

Lemma retryLoop_exhausted fuel cd le x :
  fn (retries o) = Throw x ->
  retryLoop fn o (S fuel) (retries o) cd le
  = (Throw (VError (toError x)), [EvCall (retries o)]).
Proof. intros H. simpl. rewrite H, Nat.eqb_refl. reflexivity. Qed.

Lemma retryLoop_refused fuel a cd le x :
  fn a = Throw x ->
  shouldRetry_of o (toError x) a = Return false ->
  retryLoop fn o (S fuel) a cd le
  = (Throw (VError (toError x)), [EvCall a]).
Proof.
  intros H Hs. simpl. rewrite H, Hs.
  destruct (Nat.eqb a (retries o)); reflexivity.
Qed.

Lemma retryLoop_retried fuel a cd le x :
  retried fn o x a ->
  retryLoop fn o (S fuel) a cd le
  = (fst (retryLoop fn o fuel (S a) (nextDelay o cd) (VError (toError (x a)))),
     EvCall a :: observerEvents o (toError (x a)) (a + 1)
       ++ EvSleep cd
       :: snd (retryLoop fn o fuel (S a) (nextDelay o cd)
                 (VError (toError (x a))))).
Proof.
  intros (Hf & Hne & Hs & Hobs). simpl. rewrite Hf, Hs.
  apply Nat.eqb_neq in Hne. rewrite Hne.
  unfold observerOk, observerEvents in *.
  destruct (onRetry o) as [f|].
  - destruct Hobs as [u Hu]. rewrite Hu.
    destruct (retryLoop fn o fuel (S a) _ _); reflexivity.
  - destruct (retryLoop fn o fuel (S a) _ _); reflexivity.
Qed.

Lemma sleeps_app l1 l2 : sleeps (l1 ++ l2) = sleeps l1 ++ sleeps l2.
Proof. apply omap_app. Qed.
Lemma calls_app l1 l2 : calls (l1 ++ l2) = calls l1 ++ calls l2.
Proof. apply omap_app. Qed.
Lemma observed_app l1 l2 : observed (l1 ++ l2) = observed l1 ++ observed l2.
Proof. apply omap_app. Qed.

Lemma sleeps_observerEvents e n : sleeps (observerEvents o e n) = [].
Proof. unfold observerEvents. destruct (onRetry o); reflexivity. Qed.
Lemma calls_observerEvents e n : calls (observerEvents o e n) = [].
Proof. unfold observerEvents. destruct (onRetry o); reflexivity. Qed.

(** [k] retried attempts in a row, then the loop continues. *)
Lemma retryLoop_prefix x k : forall fuel a cd le,
  (forall i, (a <= i < a + k)%nat -> retried fn o x i) ->
  retryLoop fn o (k + S fuel) a cd le
  = (fst (retryLoop fn o (S fuel) (a + k) (Nat.iter k (nextDelay o) cd) VUndefined),
     attemptsTrace o x a k cd
       ++ snd (retryLoop fn o (S fuel) (a + k)
                 (Nat.iter k (nextDelay o) cd) VUndefined)).
Proof.
  induction k as [|k IH]; intros fuel a cd le H.
  - simpl plus. rewrite Nat.add_0_r. cbn [Nat.iter attemptsTrace app].
    rewrite (retryLoop_lastError fuel a cd le VUndefined).
    destruct (retryLoop _ _ _ _ _ _); reflexivity.
  - replace (S k + S fuel)%nat with (S (k + S fuel)) by lia.
    rewrite (retryLoop_retried _ _ _ _ x) by (apply H; lia).
    rewrite (IH fuel (S a) (nextDelay o cd)) by (intros i Hi; apply H; lia).
    replace (S a + k)%nat with (a + S k)%nat by lia.
    replace (Nat.iter k (nextDelay o) (nextDelay o cd))
      with (Nat.iter (S k) (nextDelay o) cd)
      by apply Nat.iter_succ_r.
    cbn [fst snd attemptsTrace]. f_equal. cbn [app]. f_equal.
    rewrite <- List.app_assoc. reflexivity.
Qed.

Lemma sleeps_attemptsTrace x k : forall a cd,
  sleeps (attemptsTrace o x a k cd)
  = map (fun i => Nat.iter i (nextDelay o) cd) (seq 0 k).
Proof.
  induction k as [|k IH]; intros a cd; [reflexivity|].
  cbn [attemptsTrace seq map]. rewrite <- seq_shift, map_map.
  change (sleeps (EvCall a :: ?l)) with (sleeps l).
  rewrite sleeps_app, sleeps_observerEvents.
  change (sleeps (EvSleep cd :: ?l)) with (cd :: sleeps l).
  rewrite IH. cbn [app]. change (Nat.iter 0 (nextDelay o) cd) with cd.
  f_equal. apply map_ext; intros i. symmetry. apply Nat.iter_succ_r.
Qed.

Lemma calls_attemptsTrace x k : forall a cd,
  calls (attemptsTrace o x a k cd) = seq a k.
Proof.
  induction k as [|k IH]; intros a cd; [reflexivity|].
  cbn [attemptsTrace seq].
  change (calls (EvCall a :: ?l)) with (a :: calls l).
  rewrite calls_app, calls_observerEvents.
  change (calls (EvSleep cd :: ?l)) with (calls l).
  rewrite IH. reflexivity.
Qed.

Lemma observed_attemptsTrace x k f : forall a cd,
  onRetry o = Some f ->
  observed (attemptsTrace o x a k cd)
  = map (fun i => (toError (x i), S i)) (seq a k).
Proof.
  induction k as [|k IH]; intros a cd Hf; [reflexivity|].
  cbn [attemptsTrace seq map].
  change (observed (EvCall a :: ?l)) with (observed l).
  rewrite observed_app. unfold observerEvents at 1. rewrite Hf.
  change (observed (EvSleep cd :: ?l)) with (observed l).
  rewrite IH by assumption.
  replace (a + 1)%nat with (S a) by lia. reflexivity.
Qed.

End Facts.

Lemma delaySeq_iter o k : delaySeq o k = Nat.iter k (nextDelay o) (delay_of o).
Proof. induction k as [|k IH]; [reflexivity|]. simpl. now rewrite IH. Qed.


(** From the second retry on, the delay is the capped geometric one. *)
Lemma delaySeq_capped o k :
(1 <= backoffMultiplier_of o)%Q -> (0 <= maxDelay_of o)%Q ->
(delaySeq o (S k)
 == Qmin (delay_of o * backoffMultiplier_of o ^ Z.of_nat (S k)) (maxDelay_of o))%Q.
Proof.
intros Hm HM. induction k as [|k IH].
- cbn [delaySeq]. unfold nextDelay. change (Z.of_nat 1) with 1%Z.
  rewrite Qpower_1_r. reflexivity.
- change (delaySeq o (S (S k))) with (nextDelay o (delaySeq o (S k))).
  unfold nextDelay at 1. rewrite IH.
  replace (Z.of_nat (S (S k))) with (Z.of_nat (S k) + 1)%Z by lia.
  rewrite Qpower_plus' by lia. rewrite Qpower_1_r.
  set (A := (delay_of o * backoffMultiplier_of o ^ Z.of_nat (S k))%Q).
  assert (HA : (delay_of o * (backoffMultiplier_of o ^ Z.of_nat (S k)
                 * backoffMultiplier_of o) == A * backoffMultiplier_of o)%Q)
    by (unfold A; ring).
  rewrite HA. clearbody A. clear HA IH.
  set (m := backoffMultiplier_of o) in *. set (M := maxDelay_of o) in *.
  destruct (Q.min_spec A M) as [[Hlt He]|[Hle He]]; rewrite He.
  + reflexivity.
  + assert (H1 : (M <= M * m)%Q) by nra.
    assert (H2 : (M <= A * m)%Q) by nra.
    rewrite (Q.min_r _ _ H1), (Q.min_r _ _ H2). reflexivity.
Qed.

(** The first delay is the base delay itself. *)
Lemma delaySeq_first o : delaySeq o 0 = delay_of o.
Proof. reflexivity. Qed.

Section Theorems.
Context {T : Type}.

(** The delays slept by a run whose first [k] attempts are retried. *)
Lemma sleeps_prefix (fn : nat -> Completion T) o x k fuel le :
  (forall i, (i < k)%nat -> retried fn o x i) ->
  exists rest,
    sleeps (snd (retryLoop fn o (k + S fuel) 0 (delay_of o) le))
    = map (delaySeq o) (seq 0 k) ++ rest.
Proof.
  intros H. rewrite (retryLoop_prefix fn o x k) by (intros i Hi; apply H; lia).
  cbn [snd]. rewrite sleeps_app, sleeps_attemptsTrace.
  eexists. f_equal. apply map_ext. intros i. symmetry. apply delaySeq_iter.
Qed.

(** C5. A task failing on its first [k] invocations and then succeeding,
    retried with the default predicate and an observer: with
    [retries >= k] the call returns the success, the observer is called
    exactly [k] times, with the failures in order and the indices [1..k],
    and the task is invoked [k+1] times; with [retries < k] the call
    fails with failure number [retries+1] (the very value when it is an
    [Error] instance) after [retries] observer calls and [retries+1]
    invocations; and whatever the task and the options, [retries = 0]
    gives the single event "task invoked": no observer call, no sleep. *)
Theorem retry_fails_k_then_succeeds
    (fn : nat -> Completion T) (o : RetryOptions) (x : nat -> Value)
    (k : nat) (v : T) (f : JsError -> nat -> Completion unit) :
  (forall i, (i < k)%nat -> fn i = Throw (x i)) ->
  fn k = Return v ->
  shouldRetry o = None ->
  onRetry o = Some f ->
  (forall e n, f e n = Return tt) ->
  ((k <= retries o)%nat ->
     fst (retryAsync fn o) = Return v /\
     observed (snd (retryAsync fn o))
       = map (fun i => (toError (x i), S i)) (seq 0 k) /\
     calls (snd (retryAsync fn o)) = seq 0 (S k)) /\
  ((retries o < k)%nat ->
     fst (retryAsync fn o) = Throw (VError (toError (x (retries o)))) /\
     (instanceofError (x (retries o)) = true ->
        fst (retryAsync fn o) = Throw (x (retries o))) /\
     observed (snd (retryAsync fn o))
       = map (fun i => (toError (x i), S i)) (seq 0 (retries o)) /\
     calls (snd (retryAsync fn o)) = seq 0 (S (retries o))) /\
  (forall (fn' : nat -> Completion T) (o' : RetryOptions),
     retries o' = 0%nat -> snd (retryAsync fn' o') = [EvCall 0]).
Proof.
  intros Hfail Hok Hsr Hor Hf.
  assert (Hret : forall n, (n <= k)%nat -> (n <= retries o)%nat ->
            forall i, (0 <= i < 0 + n)%nat -> retried fn o x i).
  { intros n Hn Hn' i Hi. unfold retried, shouldRetry_of, observerOk.
    rewrite Hsr, Hor. split; [apply Hfail; lia|].
    split; [lia|]. split; [reflexivity|]. exists tt. apply Hf. }
  split; [|split].
  - intros Hk. unfold retryAsync.
    replace (S (retries o)) with (k + S (retries o - k))%nat by lia.
    rewrite (retryLoop_prefix fn o x k) by (apply Hret; lia).
    rewrite (retryLoop_success fn o _ _ _ _ v) by exact Hok.
    cbn [fst snd]. rewrite observed_app, calls_app.
    rewrite (observed_attemptsTrace o x k f) by exact Hor.
    rewrite calls_attemptsTrace. cbn [observed calls omap list_omap].
    rewrite app_nil_r. repeat split.
    change [(0 + k)%nat] with (seq (0 + k) 1). rewrite <- seq_app.
    f_equal; lia.
  - intros Hk. unfold retryAsync.
    replace (S (retries o)) with (retries o + 1)%nat by lia.
    rewrite (retryLoop_prefix fn o x (retries o)) by (apply Hret; lia).
    cbn [plus].
    rewrite (retryLoop_exhausted fn o _ _ _ (x (retries o)))
      by (apply Hfail; lia).
    cbn [fst snd]. rewrite observed_app, calls_app.
    rewrite (observed_attemptsTrace o x _ f) by exact Hor.
    rewrite calls_attemptsTrace. cbn [observed calls omap list_omap].
    rewrite app_nil_r. split; [reflexivity|]. split; [|split; [reflexivity|]].
    + destruct (x (retries o)); try discriminate. reflexivity.
    + change [retries o] with (seq (0 + retries o) 1). rewrite <- seq_app.
      f_equal; lia.
  - intros fn' o' H0. unfold retryAsync. rewrite H0. cbn.
    destruct (fn' 0%nat); [reflexivity|]. rewrite H0. reflexivity.
Qed.

(** C8 (amended). When [retryAsync] gives up at attempt [j], because
    [j = retries] or because [shouldRetry] returned false, it throws
    the failure of attempt [j] after the conversion
    [error instanceof Error ? error : new Error(String(error))]: an
    [Error] instance is rethrown verbatim, any other thrown value
    arrives as a new [Error] carrying its string form. *)
Theorem retry_rethrows_last_error
    (fn : nat -> Completion T) (o : RetryOptions) (x : nat -> Value)
    (j : nat) :
  (j <= retries o)%nat ->
  (forall i, (i < j)%nat ->
     fn i = Throw (x i) /\
     shouldRetry_of o (toError (x i)) i = Return true /\
     observerOk o (toError (x i)) (i + 1)) ->
  fn j = Throw (x j) ->
  (j = retries o \/ shouldRetry_of o (toError (x j)) j = Return false) ->
  fst (retryAsync fn o) = Throw (VError (toError (x j))) /\
  (forall e, x j = VError e -> fst (retryAsync fn o) = Throw (x j)) /\
  (instanceofError (x j) = false ->
     fst (retryAsync fn o) = Throw (VError (newError (String_ (x j))))).
Proof.
  intros Hj Hpre Hfail Hstop.
  assert (R : fst (retryAsync fn o) = Throw (VError (toError (x j)))).
  { unfold retryAsync.
    replace (S (retries o)) with (j + S (retries o - j))%nat by lia.
    rewrite (retryLoop_prefix fn o x j).
    - cbn [fst plus]. destruct Hstop as [-> | Hno].
      + rewrite (retryLoop_exhausted fn o _ _ _ (x (retries o)))
          by exact Hfail.
        reflexivity.
      + rewrite (retryLoop_refused fn o _ _ _ _ (x j)) by assumption.
        reflexivity.
    - intros i Hi. destruct (Hpre i) as (H1 & H2 & H3); [lia|].
      unfold retried. repeat split; try assumption. lia. }
  split; [exact R|split].
  - intros e He. rewrite R, He. reflexivity.
  - intros Hne. rewrite R. destruct (x j); try reflexivity. discriminate.
Qed.

End Theorems.

(** C3. With [delay = 5000] and [maxDelay = 1000] the sleep before the
    first retry lasts 5000 ms: the first delay is not capped, although
    [min(5000 * 1^0, 1000)] is 1000. *)
Theorem retry_first_delay_not_capped :
sleeps (snd (retryAsync failOnce uncappedOptions)) = [(5000 # 1)%Q] /\
(Qmin (delay_of uncappedOptions * backoffMultiplier_of uncappedOptions ^ 0)
      (maxDelay_of uncappedOptions) == 1000 # 1)%Q /\
~ (5000 # 1 <= maxDelay_of uncappedOptions)%Q.
Proof.
split; [reflexivity|]. split; [reflexivity|].
intros H. vm_compute in H. apply H. reflexivity.
Qed.

(** C8, as stated, fails: a task rejecting with the string ["boom"]
    makes [retryAsync] reject with a new [Error], not with the string. *)
Lemma retry_wraps_thrown_string :
throwsString 0%nat = Throw (VString "boom") /\
fst (retryAsync throwsString noRetry) = Throw (VError (newError "boom")) /\
fst (retryAsync throwsString noRetry) <> throwsString 0%nat.
Proof. repeat split. discriminate. Qed.

(** A run with two failures, then success, under [retries = 3]. *)
Lemma retry_fails_k_then_succeeds_witness :
fst (retryAsync failTwice observedOptions) = Return 7%Z /\
observed (snd (retryAsync failTwice observedOptions))
  = [(newError "e0", 1%nat); (newError "e1", 2%nat)].
Proof.
destruct (retry_fails_k_then_succeeds failTwice observedOptions
            (fun i => VError (newError (if Nat.eqb i 0 then "e0" else "e1")))
            2 7%Z (fun _ _ => Return tt)) as [H _].
- intros [|[|i]] Hi; [reflexivity|reflexivity|lia].
- reflexivity.
- reflexivity.
- reflexivity.
- reflexivity.
- destruct H as (H1 & H2 & _); [simpl; lia|]. split; [exact H1|exact H2].
Defined.

(** Giving up after one retry on an [Error]: it comes back verbatim. *)
Lemma retry_rethrows_last_error_witness :
fst (retryAsync alwaysDown uncappedOptions)
= Throw (VError (newError "down")).
Proof.
destruct (retry_rethrows_last_error alwaysDown uncappedOptions
            (fun _ => VError (newError "down")) 1) as [H _].
- simpl; lia.
- intros i Hi. repeat split.
- reflexivity.
- left; reflexivity.
- exact H.
Defined.

End RetryFacts.

(** ** [withTimeout] *)

Module TimeoutFacts.
Import Timeout.

Section Facts.
Context {T : Type}.
Variable promise : option (Z * Completion T).
Variable ms : Z.
Variable message : option string.
Variable timeoutId : TimerId.
Variable tieTaskFirst : bool.

Lemma timerDelay_in_range :
1 <= ms <= TIMEOUT_MAX -> timerDelay ms = ms.
Proof.
intros [H1 H2]. unfold timerDelay.
apply Z.leb_le in H1. apply Z.leb_le in H2. rewrite H1, H2. reflexivity.
Qed.

Lemma timerDelay_out_of_range :
ms < 1 \/ TIMEOUT_MAX < ms -> timerDelay ms = 1.
Proof.
intros H. unfold timerDelay.
destruct (Z.leb_spec 1 ms), (Z.leb_spec ms TIMEOUT_MAX); cbn; lia.
Qed.

Lemma timerDelay_pos : 1 <= timerDelay ms.
Proof.
unfold timerDelay.
destruct (Z.leb_spec 1 ms), (Z.leb_spec ms TIMEOUT_MAX); cbn; lia.
Qed.

Lemma race_task_first t r :
promise = Some (t, r) -> t < timerDelay ms ->
race promise ms tieTaskFirst = TaskFirst.
Proof.
intros -> Hlt. unfold race. apply Z.ltb_lt in Hlt. rewrite Hlt. reflexivity.
Qed.

Lemma race_timer_first :
(promise = None \/ exists t r, promise = Some (t, r) /\ timerDelay ms < t) ->
race promise ms tieTaskFirst = TimerFirst.
Proof.
intros [-> | (t & r & -> & Hlt)]; unfold race; [reflexivity|].
assert (H1 : (t <? timerDelay ms) = false) by (apply Z.ltb_ge; lia).
apply Z.ltb_lt in Hlt. rewrite H1, Hlt. reflexivity.
Qed.

Lemma withTimeout_trace :
snd (withTimeout promise ms message timeoutId tieTaskFirst)
= [EvSetTimeout timeoutId ms; EvClearTimeout timeoutId] \/
snd (withTimeout promise ms message timeoutId tieTaskFirst)
= [EvSetTimeout timeoutId ms; EvTimerFired timeoutId;
   EvClearTimeout timeoutId].
Proof.
unfold withTimeout.
destruct (race promise ms tieTaskFirst), promise as [[t r]|]; auto.
Qed.

Lemma armed_after_clear :
armed [EvSetTimeout timeoutId ms; EvClearTimeout timeoutId] [] = [] /\
armed [EvSetTimeout timeoutId ms; EvTimerFired timeoutId;
       EvClearTimeout timeoutId] [] = [].
Proof. cbn. rewrite Pos.eqb_refl. cbn. auto. Qed.

(** C9 (as amended). For a duration [ms] the host's timers honour,
    [1 <= ms <= 2^31 - 1]: if the promise settles before [ms],
    [withTimeout] settles the same way (in particular it returns the
    task's value); if it settles after [ms] or never, [withTimeout]
    fails with an [ApiError] of status code 408.  For a duration outside
    that range the same holds with a deadline of 1 ms, so that a promise
    already settled still wins.  For every duration, [clearTimeout] is
    called on the deadline timer on every path and no timer stays
    armed. *)
Theorem withTimeout_contract :
(1 <= ms <= TIMEOUT_MAX ->
 (forall t r, promise = Some (t, r) -> t < ms ->
    fst (withTimeout promise ms message timeoutId tieTaskFirst) = r) /\
 ((promise = None \/ exists t r, promise = Some (t, r) /\ ms < t) ->
    fst (withTimeout promise ms message timeoutId tieTaskFirst)
    = Throw (VError (ApiError 408 (messageOr message ms) [])))) /\
(ms < 1 \/ TIMEOUT_MAX < ms ->
 (forall t r, promise = Some (t, r) -> t < 1 ->
    fst (withTimeout promise ms message timeoutId tieTaskFirst) = r) /\
 ((promise = None \/ exists t r, promise = Some (t, r) /\ 1 < t) ->
    fst (withTimeout promise ms message timeoutId tieTaskFirst)
    = Throw (VError (ApiError 408 (messageOr message ms) [])))) /\
cleared timeoutId (snd (withTimeout promise ms message timeoutId tieTaskFirst)) /\
armed (snd (withTimeout promise ms message timeoutId tieTaskFirst)) [] = [].
Proof.
assert (Htask : forall t r, promise = Some (t, r) -> t < timerDelay ms ->
          fst (withTimeout promise ms message timeoutId tieTaskFirst) = r).
{ intros t r Hp Hlt. unfold withTimeout.
  rewrite (race_task_first t r Hp Hlt), Hp. reflexivity. }
assert (Htimer :
          (promise = None \/
           exists t r, promise = Some (t, r) /\ timerDelay ms < t) ->
          fst (withTimeout promise ms message timeoutId tieTaskFirst)
          = Throw (VError (ApiError 408 (messageOr message ms) []))).
{ intros H. unfold withTimeout. rewrite (race_timer_first H).
  destruct promise as [[t r]|]; reflexivity. }
split; [|split; [|split]].
- intros Hin. pose proof (timerDelay_in_range Hin) as E. split.
  + intros t r Hp Hlt. apply (Htask t r Hp). rewrite E. exact Hlt.
  + intros H. apply Htimer. rewrite E. exact H.
- intros Hout. pose proof (timerDelay_out_of_range Hout) as E. split.
  + intros t r Hp Hlt. apply (Htask t r Hp). rewrite E. exact Hlt.
  + intros H. apply Htimer. rewrite E. exact H.
- unfold cleared. destruct withTimeout_trace as [-> | ->]; cbn; auto.
- destruct armed_after_clear as [H1 H2].
  destruct withTimeout_trace as [-> | ->]; assumption.
Qed.

End Facts.

(** A task resolving at 10 ms against a 50 ms deadline, and one
    resolving at 80 ms. *)
Lemma withTimeout_contract_witness :
fst (withTimeout (Some (10, Return 1)) 50 None 1%positive false) = Return 1 /\
fst (withTimeout (Some (80, Return 1)) 50 None 1%positive true)
= Throw (VError (ApiError 408 "Operation timed out after 50ms" [])).
Proof.
assert (Hin : 1 <= 50 <= TIMEOUT_MAX) by (unfold TIMEOUT_MAX; lia).
split.
- destruct (withTimeout_contract (Some (10, Return 1)) 50 None 1%positive false)
    as [H _].
  apply (proj1 (H Hin)) with (t := 10); [reflexivity|lia].
- destruct (withTimeout_contract (Some (80, Return 1)) 50 None 1%positive true)
    as [H _].
  apply (proj2 (H Hin)).
  right. exists 80, (Return 1). split; [reflexivity|lia].
Defined.

(** C9, the claim as first stated, fails for a duration beyond the
    host's range: against a deadline of [2^31] ms a task that resolves
    after 50 ms, long before the deadline, loses the race, and
    [withTimeout] fails with the 408 error instead of returning the
    task's value. *)
Lemma withTimeout_beyond_timer_range_fires_early :
50 < 2147483648 /\
fst (withTimeout (Some (50, Return 1)) 2147483648 None 1%positive true)
= Throw (VError (ApiError 408 "Operation timed out after 2147483648ms" [])) /\
fst (withTimeout (Some (50, Return 1)) 2147483648 None 1%positive true)
<> Return 1.
Proof.
split; [lia|]. split; [reflexivity|]. cbn. discriminate.
Qed.

End TimeoutFacts.

(** ** [semaphore] *)

Module SemaphoreFacts.
Import Semaphore.

Section Facts.
Variable limit : Z.

Lemma semaphore_run_app s ops1 ops2 :
run limit s (ops1 ++ ops2)
= (fst (run limit (fst (run limit s ops1)) ops2),
   snd (run limit s ops1) ++ snd (run limit (fst (run limit s ops1)) ops2)).
Proof.
revert s. induction ops1 as [|op ops1 IH]; intros s; cbn [run app].
- cbn [fst snd app]. destruct (run limit s ops2); reflexivity.
- destruct (step limit s op) as [s1 ob]. rewrite IH.
  destruct (run limit s1 ops1) as [s2 obs]. cbn [fst snd app].
  destruct (run limit s2 ops2); reflexivity.
Qed.

(** While the count is below the limit, acquisitions succeed at once. *)
Lemma run_acquire_free tickets : forall s,
count s + Z.of_nat (length tickets) <= limit ->
run limit s (map Acquire tickets)
= ({| count := count s + Z.of_nat (length tickets); queue := queue s |},
   map Acquired tickets).
Proof.
induction tickets as [|w ws IH]; intros s H.
- cbn. destruct s; cbn. rewrite Z.add_0_r. reflexivity.
- cbn [map run step length] in *. unfold acquire.
  assert (Hlt : (count s <? limit) = true) by (apply Z.ltb_lt; lia).
  rewrite Hlt, IH by (cbn [count]; lia). cbn [count queue].
  do 2 f_equal. lia.
Qed.

(** At the limit, acquisitions queue up in call order. *)
Lemma run_acquire_full ws : forall s,
limit <= count s ->
run limit s (map Acquire ws)
= ({| count := count s; queue := queue s ++ ws |}, map Enqueued ws).
Proof.
induction ws as [|w ws IH]; intros s H.
- cbn. rewrite app_nil_r. destruct s; reflexivity.
- cbn [map run step]. unfold acquire.
  assert (Hlt : (count s <? limit) = false) by (apply Z.ltb_ge; lia).
  rewrite Hlt, IH by (cbn [count]; lia). cbn [count queue].
  rewrite <- List.app_assoc. reflexivity.
Qed.

(** The queue holds, in order, the arrivals not woken yet. *)
Lemma semaphore_run_fifo ops : forall s,
queue s ++ arrivals (snd (run limit s ops))
= woken (snd (run limit s ops)) ++ queue (fst (run limit s ops)).
Proof.
induction ops as [|op ops IH]; intros s.
- cbn. apply app_nil_r.
- cbn [run]. destruct (step limit s op) as [s1 ob] eqn:Hstep.
  specialize (IH s1). destruct (run limit s1 ops) as [s2 obs].
  cbn [fst snd] in *. destruct op as [w|]; cbn [step] in Hstep.
  + unfold acquire in Hstep. destruct (count s <? limit);
      inversion Hstep; subst; clear Hstep; cbn [queue] in IH.
    * exact IH.
    * change (arrivals (Enqueued w :: obs)) with (w :: arrivals obs).
      change (woken (Enqueued w :: obs)) with (woken obs).
      rewrite <- IH, <- List.app_assoc. reflexivity.
  + unfold release in Hstep. destruct (queue s) as [|next rest] eqn:Hq;
      inversion Hstep; subst; clear Hstep; cbn [queue] in IH.
    * exact IH.
    * change (woken (Woke next :: obs)) with (next :: woken obs).
      change (arrivals (Woke next :: obs)) with (arrivals obs).
      cbn [app]. f_equal. exact IH.
Qed.

End Facts.

(** C2. For a semaphore of capacity [N]: the first [N] acquisitions
    resolve at once, the next one is queued and stays queued, at the
    head, however many more acquires follow, and the next release
    resolves exactly it; a release with waiters resolves the oldest one
    and leaves the count unchanged; a release without waiters decrements
    the count; and over any sequence of calls the waiters woken so far,
    followed by those still queued, are the arrivals in arrival order. *)
Theorem semaphore_capacity_and_fifo (N : nat) :
(forall tickets w more,
   length tickets = N ->
   let r := run (Z.of_nat N) semaphore
              (map Acquire tickets ++ Acquire w :: map Acquire more) in
   snd r = map Acquired tickets ++ Enqueued w :: map Enqueued more /\
   queue (fst r) = w :: more /\
   count (fst r) = Z.of_nat N /\
   release (fst r) = ({| count := Z.of_nat N; queue := more |}, Some w)) /\
(forall s w rest,
   queue s = w :: rest ->
   release s = ({| count := count s; queue := rest |}, Some w)) /\
(forall s,
   queue s = [] ->
   release s = ({| count := count s - 1; queue := [] |}, None)) /\
(forall ops,
   arrivals (snd (run (Z.of_nat N) semaphore ops))
   = woken (snd (run (Z.of_nat N) semaphore ops))
     ++ queue (fst (run (Z.of_nat N) semaphore ops))).
Proof.
split; [|split; [|split]].
- intros tickets w more Hlen r. subst r.
  change (Acquire w :: map Acquire more) with (map Acquire (w :: more)).
  rewrite semaphore_run_app.
  rewrite (run_acquire_free (Z.of_nat N) tickets semaphore)
    by (cbn [count semaphore]; lia).
  cbn [fst snd]. rewrite run_acquire_full by (cbn [count semaphore]; lia).
  cbn [fst snd count queue semaphore app map]. rewrite Hlen.
  repeat split.
- intros s w rest Hq. unfold release. rewrite Hq. reflexivity.
- intros s Hq. unfold release. rewrite Hq. reflexivity.
- intros ops. apply (semaphore_run_fifo (Z.of_nat N) ops semaphore).
Qed.

(** Capacity 2, tickets 0..5: 0 and 1 pass, 2, 3, 4, 5 wait in order. *)
Lemma semaphore_capacity_and_fifo_witness :
snd (run 2 semaphore (map Acquire [0; 1] ++ Acquire 2 :: map Acquire [3; 4; 5]))%nat
= [Acquired 0; Acquired 1; Enqueued 2; Enqueued 3; Enqueued 4; Enqueued 5]%nat.
Proof.
destruct (semaphore_capacity_and_fifo 2) as [H _].
destruct (H [0; 1]%nat 2%nat [3; 4; 5]%nat) as [H1 _]; [reflexivity|].
exact H1.
Defined.

(** C10. A release on a fresh semaphore of capacity [N] raises nothing,
    wakes nobody and leaves the count at -1; [available] then reports
    [N + 1], and the next [N + 1] acquisitions all resolve at once. *)
Theorem semaphore_unmatched_release (N : nat) :
release semaphore = ({| count := -1; queue := [] |}, None) /\
available (Z.of_nat N) (fst (release semaphore)) = Z.of_nat N + 1 /\
(forall tickets,
   length tickets = S N ->
   snd (run (Z.of_nat N) (fst (release semaphore)) (map Acquire tickets))
   = map Acquired tickets /\
   queue (fst (run (Z.of_nat N) (fst (release semaphore)) (map Acquire tickets)))
   = []).
Proof.
split; [reflexivity|]. split; [unfold available; cbn; lia|].
intros tickets Hlen.
rewrite run_acquire_free by (cbn [release semaphore queue count fst]; lia).
split; reflexivity.
Qed.

(** Capacity 1: after the stray release two acquisitions pass. *)
Lemma semaphore_unmatched_release_witness :
snd (run 1 (fst (release semaphore)) (map Acquire [7; 8]%nat))
= [Acquired 7; Acquired 8]%nat.
Proof.
destruct (semaphore_unmatched_release 1) as (_ & _ & H).
destruct (H [7; 8]%nat) as [H1 _]; [reflexivity|]. exact H1.
Defined.

End SemaphoreFacts.

(** ** [CircuitBreaker] *)

Module CircuitBreakerFacts.
Import CircuitBreaker.

Section Facts.
Context {T : Type}.
Variable o : CircuitBreakerOptions.

Lemma updateState_not_open b now :
state b <> OPEN -> updateState o b now = b.
Proof.
intros H. unfold updateState, isOpen. destruct (state b); [reflexivity|easy|reflexivity].
Qed.

Lemma updateState_open_early b now :
state b = OPEN -> now - lastFailureTime b < resetTimeout o ->
updateState o b now = b.
Proof.
intros Hs Hlt. unfold updateState, isOpen. rewrite Hs.
assert (H : (now - lastFailureTime b >=? resetTimeout o) = false)
  by (rewrite Z.geb_leb; apply Z.leb_gt; lia).
rewrite H. reflexivity.
Qed.

Lemma updateState_open_elapsed b now :
state b = OPEN -> resetTimeout o <= now - lastFailureTime b ->
updateState o b now
= {| state := HALF_OPEN; failureCount := failureCount b;
     successCount := 0; lastFailureTime := lastFailureTime b |}.
Proof.
intros Hs Hle. unfold updateState, isOpen. rewrite Hs.
assert (H : (now - lastFailureTime b >=? resetTimeout o) = true)
  by (rewrite Z.geb_leb; apply Z.leb_le; lia).
rewrite H. reflexivity.
Qed.

(** An open breaker inside its reset window rejects and stays as it is. *)
Lemma execute_open_early b (c : Call T) :
state b = OPEN -> at_ c - lastFailureTime b < resetTimeout o ->
execute o b (at_ c) (task c) (settledAt c)
= (b, rejectedOpen (lastFailureTime b)).
Proof.
intros Hs Hlt. unfold execute, executeBegin.
rewrite updateState_open_early by assumption.
unfold isOpen. rewrite Hs. reflexivity.
Qed.

Lemma executeAll_open_early (cs : list (Call T)) : forall b,
state b = OPEN ->
(forall c, In c cs -> at_ c - lastFailureTime b < resetTimeout o) ->
executeAll o b cs = (b, map (fun _ => rejectedOpen (lastFailureTime b)) cs).
Proof.
induction cs as [|c cs IH]; intros b Hs H; [reflexivity|].
cbn [executeAll map]. rewrite execute_open_early by (auto; apply H; left; reflexivity).
rewrite IH by (auto; intros c' Hc'; apply H; right; exact Hc').
reflexivity.
Qed.

(** A qualifying failure on a closed breaker. *)
Lemma execute_closed_failure b (c : Call T) :
state b = CLOSED -> qualifies o c ->
execute o b (at_ c) (task c) (settledAt c)
= (if failureCount b + 1 >=? failureThreshold o
   then {| state := OPEN; failureCount := failureCount b + 1;
           successCount := successCount b; lastFailureTime := settledAt c |}
   else {| state := CLOSED; failureCount := failureCount b + 1;
           successCount := successCount b;
           lastFailureTime := lastFailureTime b |},
   ran c).
Proof.
intros Hs (x & Hx & Hq). unfold execute, executeBegin.
rewrite updateState_not_open by (rewrite Hs; discriminate).
unfold isOpen. rewrite Hs. unfold ran. rewrite Hx.
unfold executeSettle, onFailure. rewrite Hq, Hs. cbn [failureCount].
destruct (failureCount b + 1 >=? failureThreshold o); reflexivity.
Qed.

(** Qualifying failures below the threshold only count up. *)
Lemma executeAll_closed_failures (cs : list (Call T)) : forall b,
state b = CLOSED ->
(forall c, In c cs -> qualifies o c) ->
failureCount b + Z.of_nat (length cs) < failureThreshold o ->
executeAll o b cs
= ({| state := CLOSED; failureCount := failureCount b + Z.of_nat (length cs);
      successCount := successCount b; lastFailureTime := lastFailureTime b |},
   map ran cs).
Proof.
induction cs as [|c cs IH]; intros b Hs Hq Hlt.
- cbn. rewrite Z.add_0_r. destruct b; cbn in *; subst; reflexivity.
- cbn [executeAll map length] in *.
  rewrite execute_closed_failure by (auto; apply Hq; left; reflexivity).
  assert (H : (failureCount b + 1 >=? failureThreshold o) = false)
    by (rewrite Z.geb_leb; apply Z.leb_gt; lia).
  rewrite H, IH; cbn [state failureCount successCount lastFailureTime].
  + do 2 f_equal. lia.
  + reflexivity.
  + intros c' Hc'. apply Hq. right. exact Hc'.
  + lia.
Qed.

Lemma executeAll_app (cs1 cs2 : list (Call T)) : forall b,
executeAll o b (cs1 ++ cs2)
= (fst (executeAll o (fst (executeAll o b cs1)) cs2),
   snd (executeAll o b cs1)
     ++ snd (executeAll o (fst (executeAll o b cs1)) cs2)).
Proof.
induction cs1 as [|c cs1 IH]; intros b; cbn [executeAll app].
- cbn [fst snd app]. destruct (executeAll o b cs2); reflexivity.
- destruct (execute o b (at_ c) (task c) (settledAt c)) as [b1 out].
  rewrite IH. destruct (executeAll o b1 cs1) as [b2 outs].
  cbn [fst snd app]. destruct (executeAll o b2 cs2); reflexivity.
Qed.

(** A success on a half-open breaker. *)
Lemma execute_half_open_success b (c : Call T) :
state b = HALF_OPEN -> succeeds c ->
execute o b (at_ c) (task c) (settledAt c)
= (if successCount b + 1 >=? successThreshold_of o
   then {| state := CLOSED; failureCount := 0; successCount := 0;
           lastFailureTime := lastFailureTime b |}
   else {| state := HALF_OPEN; failureCount := failureCount b;
           successCount := successCount b + 1;
           lastFailureTime := lastFailureTime b |},
   ran c).
Proof.
intros Hs (v & Hv). unfold execute, executeBegin.
rewrite updateState_not_open by (rewrite Hs; discriminate).
unfold isOpen. rewrite Hs. unfold ran. rewrite Hv.
unfold executeSettle, onSuccess. rewrite Hs. cbn [successCount].
destruct (successCount b + 1 >=? successThreshold_of o); reflexivity.
Qed.

(** Successes on a half-open breaker up to the threshold close it. *)
Lemma executeAll_half_open_successes (cs : list (Call T)) : forall b,
state b = HALF_OPEN ->
(forall c, In c cs -> succeeds c) ->
cs <> [] ->
successCount b + Z.of_nat (length cs) = successThreshold_of o ->
executeAll o b cs
= ({| state := CLOSED; failureCount := 0; successCount := 0;
      lastFailureTime := lastFailureTime b |},
   map ran cs).
Proof.
induction cs as [|c cs IH]; intros b Hs Hok Hne Hlen; [easy|].
cbn [executeAll map length] in *.
rewrite execute_half_open_success by (auto; apply Hok; left; reflexivity).
destruct cs as [|c' cs'].
- assert (H : (successCount b + 1 >=? successThreshold_of o) = true)
    by (rewrite Z.geb_leb; apply Z.leb_le; cbn [length] in Hlen; lia).
  rewrite H. reflexivity.
- assert (H : (successCount b + 1 >=? successThreshold_of o) = false)
    by (rewrite Z.geb_leb; apply Z.leb_gt; cbn [length] in Hlen; lia).
  rewrite H, IH; cbn [state failureCount successCount lastFailureTime].
  + reflexivity.
  + reflexivity.
  + intros c0 Hc0. apply Hok. right. exact Hc0.
  + discriminate.
  + cbn [length] in *. lia.
Qed.

(** Once open, settlements of tasks started earlier change nothing. *)
Lemma executeSettle_open b (r : Completion T) now :
state b = OPEN -> fst (executeSettle o b r now) = b.
Proof.
intros Hs. unfold executeSettle, onSuccess, onFailure.
destruct r as [v|x]; rewrite Hs; [reflexivity|].
destruct (shouldTrip_of o x) as [[|]|y]; reflexivity.
Qed.

(** Under the default [shouldTrip] every failure qualifies. *)
Lemma qualifies_default (c : Call T) :
shouldTrip o = None -> fails c -> qualifies o c.
Proof.
intros Hd [x Hx]. exists x. split; [exact Hx|].
unfold shouldTrip_of. rewrite Hd. reflexivity.
Qed.

(** C1. Starting from a new breaker, [failureThreshold] consecutive
    [execute] calls whose tasks fail with qualifying failures (under the
    default [shouldTrip]: any failures) are all run and rethrown, and
    leave the breaker OPEN with the settlement time of the last one as
    trip time; every later [execute] call made less than [resetTimeout]
    after that time rejects with the 503 [ApiError] carrying the trip
    time, does not invoke its task, and leaves the breaker unchanged. *)
Theorem breaker_trips_then_rejects
  (failing : list (Call T)) (last : Call T) (later : list (Call T)) :
Z.of_nat (length (failing ++ [last])) = failureThreshold o ->
(forall c, In c (failing ++ [last]) -> qualifies o c) ->
(forall c, In c later -> at_ c - settledAt last < resetTimeout o) ->
snd (executeAll o new (failing ++ [last])) = map ran (failing ++ [last]) /\
state (fst (executeAll o new (failing ++ [last]))) = OPEN /\
lastFailureTime (fst (executeAll o new (failing ++ [last]))) = settledAt last /\
executeAll o (fst (executeAll o new (failing ++ [last]))) later
= (fst (executeAll o new (failing ++ [last])),
   map (fun _ => rejectedOpen (settledAt last)) later).
Proof.
intros Hlen Hq Hlater.
rewrite length_app, Nat2Z.inj_add in Hlen. cbn [length] in Hlen.
assert (E : executeAll o new (failing ++ [last])
            = ({| state := OPEN; failureCount := failureThreshold o;
                  successCount := 0; lastFailureTime := settledAt last |},
               map ran (failing ++ [last]))).
{ rewrite executeAll_app.
  rewrite (executeAll_closed_failures failing new);
    [|reflexivity|intros c Hc; apply Hq, in_or_app; left; exact Hc
     |cbn [failureCount new]; lia].
  cbn [fst snd executeAll].
  rewrite execute_closed_failure;
    [|reflexivity|apply Hq, in_or_app; right; left; reflexivity].
  cbn [state failureCount successCount lastFailureTime new].
  assert (H : (0 + Z.of_nat (length failing) + 1 >=? failureThreshold o) = true)
    by (rewrite Z.geb_leb; apply Z.leb_le; lia).
  rewrite H, map_app. cbn [map fst snd].
  replace (0 + Z.of_nat (length failing) + 1) with (failureThreshold o)
    by (change (Z.of_nat 1) with 1 in Hlen; lia).
  reflexivity. }
rewrite E. cbn [fst snd]. repeat split.
rewrite executeAll_open_early; [reflexivity|reflexivity|exact Hlater].
Qed.

(** C4 (amended).  For a breaker that is OPEN and a call made once
    [resetTimeout] has elapsed since the trip: the call (like
    [getState]) moves the breaker to HALF_OPEN with a zeroed success
    counter, and the task is invoked; if this call and the following
    ones, [successThreshold] in all, succeed, the breaker ends CLOSED
    with both counters at 0, every task having run; in HALF_OPEN a
    qualifying failure is rethrown and returns the breaker to OPEN with
    the settlement time as new trip time; and in HALF_OPEN a failure
    that [shouldTrip] does not count is rethrown as well and leaves the
    breaker as it is: HALF_OPEN, with its counters and trip time
    unchanged. *)
Theorem breaker_half_open_recovery
  (b : Breaker) (first : Call T) (rest : list (Call T)) :
state b = OPEN ->
resetTimeout o <= at_ first - lastFailureTime b ->
(executeBegin o b (at_ first)
 = ({| state := HALF_OPEN; failureCount := failureCount b;
       successCount := 0; lastFailureTime := lastFailureTime b |}, None) /\
 snd (getState o b (at_ first)) = HALF_OPEN /\
 invoked (snd (execute o b (at_ first) (task first) (settledAt first))) = true) /\
((forall c, In c (first :: rest) -> succeeds c) ->
 Z.of_nat (length (first :: rest)) = successThreshold_of o ->
 executeAll o b (first :: rest)
 = ({| state := CLOSED; failureCount := 0; successCount := 0;
       lastFailureTime := lastFailureTime b |},
    map ran (first :: rest))) /\
(forall (h : Breaker) (c : Call T),
   state h = HALF_OPEN -> qualifies o c ->
   execute o h (at_ c) (task c) (settledAt c)
   = ({| state := OPEN; failureCount := failureCount h;
         successCount := successCount h; lastFailureTime := settledAt c |},
      ran c)) /\
(forall (h : Breaker) (c : Call T) (x : Value),
   state h = HALF_OPEN -> task c = Throw x ->
   shouldTrip_of o x = Return false ->
   execute o h (at_ c) (task c) (settledAt c) = (h, ran c) /\
   state (fst (execute o h (at_ c) (task c) (settledAt c))) = HALF_OPEN).
Proof.
intros Hs Hel.
assert (Hb : executeBegin o b (at_ first)
             = ({| state := HALF_OPEN; failureCount := failureCount b;
                   successCount := 0; lastFailureTime := lastFailureTime b |},
                None)).
{ unfold executeBegin. rewrite updateState_open_elapsed by assumption.
  reflexivity. }
split; [split; [exact Hb|split]|split; [|split]].
- unfold getState. rewrite updateState_open_elapsed by assumption. reflexivity.
- unfold execute. rewrite Hb.
  destruct (executeSettle o _ (task first) (settledAt first)). reflexivity.
- intros Hok Hlen.
  (* the first call runs on the half-open state *)
  assert (E : forall cs, executeAll o b (first :: cs)
     = executeAll o {| state := HALF_OPEN; failureCount := failureCount b;
                       successCount := 0;
                       lastFailureTime := lastFailureTime b |} (first :: cs)).
  { intros cs. cbn [executeAll]. unfold execute at 1 2. rewrite Hb.
    unfold executeBegin.
    rewrite updateState_not_open by (cbn [state]; discriminate).
    reflexivity. }
  rewrite E, executeAll_half_open_successes;
    [reflexivity|reflexivity|exact Hok|discriminate|exact Hlen].
- intros h c Hh (x & Hx & Hq). unfold execute, executeBegin.
  rewrite updateState_not_open by (rewrite Hh; discriminate).
  unfold isOpen, ran. rewrite Hh, Hx.
  unfold executeSettle, onFailure. rewrite Hq, Hh. reflexivity.
- intros h c x Hh Hx Hq.
  assert (E : execute o h (at_ c) (task c) (settledAt c) = (h, ran c)).
  { unfold execute, executeBegin.
    rewrite updateState_not_open by (rewrite Hh; discriminate).
    unfold isOpen, ran. rewrite Hh, Hx.
    unfold executeSettle, onFailure. rewrite Hq. reflexivity. }
  rewrite E. split; [reflexivity|exact Hh].
Qed.

End Facts.

(** Two failures trip [twoStrikes]; calls at 500 and 1002 are rejected. *)
Lemma breaker_trips_then_rejects_witness :
executeAll twoStrikes
  (fst (executeAll twoStrikes new [mkCall 0 down 1; mkCall 2 down 3]))
  [mkCall 500 (Return 5) 501; mkCall 1002 down 1003]
= (trippedAt3, [rejectedOpen 3; rejectedOpen 3]).
Proof.
destruct (breaker_trips_then_rejects twoStrikes
            [mkCall 0 down 1] (mkCall 2 down 3)
            [mkCall 500 (Return 5) 501; mkCall 1002 down 1003])
  as (_ & _ & _ & H).
- reflexivity.
- intros c Hc. apply qualifies_default; [reflexivity|].
  destruct Hc as [<-|[<-|[]]]; eexists; reflexivity.
- intros c [<-|[<-|[]]]; cbn; lia.
- exact H.
Defined.

(** Two successes from time 1003 on close the breaker tripped at 3. *)
Lemma breaker_half_open_recovery_witness :
executeAll twoStrikes trippedAt3
  [mkCall 1003 (Return 1) 1004; mkCall 1005 (Return 2) 1006]
= ({| state := CLOSED; failureCount := 0; successCount := 0;
      lastFailureTime := 3 |},
   [mkOutcome (Return 1) true; mkOutcome (Return 2) true]).
Proof.
destruct (breaker_half_open_recovery twoStrikes trippedAt3
            (mkCall 1003 (Return 1) 1004) [mkCall 1005 (Return 2) 1006])
  as (_ & H & _).
- reflexivity.
- cbn. lia.
- apply H.
  + intros c [<-|[<-|[]]]; eexists; reflexivity.
  + reflexivity.
Defined.

(** C4, as stated, fails: a breaker tripped by a server error and probed
    after the reset timeout with a task failing with a 404 invokes the
    task, rethrows the failure, and stays HALF_OPEN. *)
Lemma breaker_half_open_keeps_unqualified_failure :
state (fst (executeAll tripOnServerErrors new [mkCall 0 down 1])) = OPEN /\
snd (execute tripOnServerErrors
       (fst (executeAll tripOnServerErrors new [mkCall 0 down 1]))
       1001 notFound 1002)
= mkOutcome notFound true /\
state (fst (execute tripOnServerErrors
              (fst (executeAll tripOnServerErrors new [mkCall 0 down 1]))
              1001 notFound 1002)) = HALF_OPEN /\
state (fst (execute tripOnServerErrors
              (fst (executeAll tripOnServerErrors new [mkCall 0 down 1]))
              1001 notFound 1002)) <> OPEN.
Proof. repeat split. discriminate. Qed.

End CircuitBreakerFacts.

(** ** [bulkhead] *)

Module BulkheadFacts.
Import Bulkhead.

Lemma existsb_inflight task l :
existsb (Nat.eqb task) l = true <-> In task l.
Proof.
rewrite existsb_exists. split.
- intros (x & Hx & He). apply Nat.eqb_eq in He. subst. exact Hx.
- intros H. exists task. split; [exact H|apply Nat.eqb_refl].
Qed.

Lemma length_remove_first task l :
In task l -> S (length (remove_first task l)) = length l.
Proof.
induction l as [|x l IH]; intros H; [destruct H|].
cbn [remove_first]. destruct (Nat.eqb x task) eqn:E; [reflexivity|].
cbn [length]. f_equal. apply IH. destruct H as [->|H]; [|exact H].
rewrite Nat.eqb_refl in E. discriminate.
Qed.

Section Facts.
Variable o : BulkheadOptions.

Lemma invariant_init : invariant o init.
Proof. unfold invariant, init; cbn. repeat split; [lia|easy]. Qed.

Lemma submit_invariant b task :
invariant o b -> invariant o (fst (submit o b task)).
Proof.
intros (H1 & H2 & H3). unfold submit.
destruct (activeCount b <? concurrency o) eqn:E.
- apply Z.ltb_lt in E. unfold invariant. cbn [fst activeCount queue inflight].
  rewrite length_app, Nat2Z.inj_add. cbn [length]. repeat split; [lia|lia|].
  intros Hq. specialize (H3 Hq). lia.
- apply Z.ltb_ge in E. destruct (queueFull o b); cbn [fst].
  + repeat split; assumption.
  + unfold invariant. cbn [activeCount queue inflight].
    repeat split; [assumption|assumption|]. intros _. exact E.
Qed.

(** What [settle] does on a state satisfying the invariant: the slot
    goes to the head of the queue, or is given back. *)
Lemma settle_spec b task :
invariant o b -> In task (inflight b) ->
settle o b task
= Some match queue b with
       | next :: rest =>
           ({| activeCount := activeCount b; queue := rest;
               inflight := remove_first task (inflight b) ++ [next] |},
            Some next)
       | [] =>
           ({| activeCount := activeCount b - 1; queue := [];
               inflight := remove_first task (inflight b) |}, None)
       end.
Proof.
intros (H1 & H2 & H3) Hin. unfold settle.
apply existsb_inflight in Hin as Hex. rewrite Hex. f_equal.
unfold processQueue. cbn [activeCount queue inflight].
pose proof (length_remove_first task (inflight b) Hin) as Hl.
assert (E : (activeCount b - 1 >=? concurrency o) = false)
  by (rewrite Z.geb_leb; apply Z.leb_gt; lia).
rewrite E. destruct (queue b) as [|next rest]; [reflexivity|].
do 2 f_equal. lia.
Qed.

Lemma settle_invariant b task b' next :
invariant o b -> settle o b task = Some (b', next) -> invariant o b'.
Proof.
intros Hinv Hs. assert (Hin : In task (inflight b)).
{ unfold settle in Hs. destruct (existsb (Nat.eqb task) (inflight b)) eqn:E;
    [apply existsb_inflight; exact E|discriminate]. }
rewrite settle_spec in Hs by assumption.
destruct Hinv as (H1 & H2 & H3).
pose proof (length_remove_first task (inflight b) Hin) as Hl.
destruct (queue b) as [|nx rest] eqn:Hq; inversion Hs; subst; clear Hs;
  unfold invariant; cbn [activeCount queue inflight].
- repeat split; [lia|lia|easy].
- rewrite length_app. cbn [length]. repeat split; [lia|lia|].
  intros _. apply H3. discriminate.
Qed.

Lemma step_invariant b ev b' ob :
invariant o b -> step o b ev = Some (b', ob) -> invariant o b'.
Proof.
intros Hinv Hstep. destruct ev as [task|task ok]; cbn [step] in Hstep.
- pose proof (submit_invariant b task Hinv) as H.
  destruct (submit o b task) as [b1 a]. inversion Hstep; subst. exact H.
- destruct (settle o b task) as [[b1 nx]|] eqn:E; [|discriminate].
  inversion Hstep; subst. eapply settle_invariant; eassumption.
Qed.

Lemma bulkhead_run_invariant evs : forall b b' obs,
invariant o b -> run o b evs = Some (b', obs) -> invariant o b'.
Proof.
induction evs as [|ev evs IH]; intros b b' obs Hinv Hrun; cbn [run] in Hrun.
- inversion Hrun; subst. exact Hinv.
- destruct (step o b ev) as [[b1 ob]|] eqn:Hstep; [|discriminate].
  destruct (run o b1 evs) as [[b2 obs']|] eqn:Hr; [|discriminate].
  inversion Hrun; subst. eapply IH; [|exact Hr].
  eapply step_invariant; eassumption.
Qed.

(** The queue holds, in order, the queued submissions not dequeued yet. *)
Lemma bulkhead_run_fifo evs : forall b b' obs,
run o b evs = Some (b', obs) ->
queue b ++ queuedOrder obs = dequeuedOrder obs ++ queue b'.
Proof.
induction evs as [|ev evs IH]; intros b b' obs Hrun; cbn [run] in Hrun.
- inversion Hrun; subst. cbn. apply app_nil_r.
- destruct (step o b ev) as [[b1 ob]|] eqn:Hstep; [|discriminate].
  destruct (run o b1 evs) as [[b2 obs']|] eqn:Hr; [|discriminate].
  inversion Hrun; subst. specialize (IH _ _ _ Hr).
  destruct ev as [task|task ok]; cbn [step] in Hstep.
  + unfold submit in Hstep.
    destruct (activeCount b <? concurrency o);
      [|destruct (queueFull o b)]; inversion Hstep; subst; clear Hstep;
      cbn [queue] in IH; try exact IH.
    change (queuedOrder (Submitted task Queued :: obs'))
      with (task :: queuedOrder obs').
    change (dequeuedOrder (Submitted task Queued :: obs'))
      with (dequeuedOrder obs').
    rewrite <- IH, <- List.app_assoc. reflexivity.
  + unfold settle in Hstep.
    destruct (existsb (Nat.eqb task) (inflight b)); [|discriminate].
    unfold processQueue in Hstep. cbn [activeCount queue inflight] in Hstep.
    destruct (activeCount b - 1 >=? concurrency o);
      [|destruct (queue b) as [|nx rest] eqn:Hq];
      inversion Hstep; subst; clear Hstep; cbn [queue] in IH;
      try (rewrite ?Hq; exact IH).
    change (dequeuedOrder (Released task (Some nx) :: obs'))
      with (nx :: dequeuedOrder obs').
    change (queuedOrder (Released task (Some nx) :: obs'))
      with (queuedOrder obs').
    cbn [app]. f_equal. exact IH.
Qed.

(** C6. In every state the bulkhead reaches from its initial one: a
    submission made while [concurrency] tasks are in flight and
    [maxQueue] submissions are queued is rejected with the 429
    [ApiError], leaving the state as it is (the task is not invoked);
    a submission made while fewer than [concurrency] tasks are in flight
    takes a slot and invokes the task at once; when an in-flight task
    settles, fulfilled or rejected, the head of the queue is dequeued
    and invoked in the freed slot (or, with nobody queued, the slot is
    given back); and the entries dequeued so far, followed by the queue,
    are the queued submissions in submission order. *)
Theorem bulkhead_contract (evs : list Ev) (b : Bulk) (obs : list Obs) :
run o init evs = Some (b, obs) ->
(forall task Q,
   maxQueue o = Some Q ->
   Z.of_nat (length (inflight b)) = concurrency o ->
   Z.of_nat (length (queue b)) = Q ->
   submit o b task = (b, Rejected (ApiError 429 "Bulkhead queue limit reached" []))) /\
(forall task,
   Z.of_nat (length (inflight b)) < concurrency o ->
   submit o b task
   = ({| activeCount := activeCount b + 1; queue := queue b;
         inflight := inflight b ++ [task] |}, Started)) /\
(forall task fulfilled,
   In task (inflight b) ->
   step o b (Settle task fulfilled)
   = Some match queue b with
          | next :: rest =>
              ({| activeCount := activeCount b; queue := rest;
                  inflight := remove_first task (inflight b) ++ [next] |},
               Released task (Some next))
          | [] =>
              ({| activeCount := activeCount b - 1; queue := [];
                  inflight := remove_first task (inflight b) |},
               Released task None)
          end) /\
queuedOrder obs = dequeuedOrder obs ++ queue b.
Proof.
intros Hrun.
pose proof (bulkhead_run_invariant evs init b obs invariant_init Hrun) as Hinv.
pose proof Hinv as (H1 & H2 & H3).
split; [|split; [|split]].
- intros task Q HQ Hc Hq. unfold submit, queueFull.
  assert (E : (activeCount b <? concurrency o) = false)
    by (apply Z.ltb_ge; lia).
  rewrite E, HQ.
  assert (E' : (Z.of_nat (length (queue b)) >=? Q) = true)
    by (rewrite Z.geb_leb; apply Z.leb_le; lia).
  rewrite E'. reflexivity.
- intros task Hlt. unfold submit.
  assert (E : (activeCount b <? concurrency o) = true)
    by (apply Z.ltb_lt; lia).
  rewrite E. reflexivity.
- intros task ok Hin. cbn [step]. rewrite settle_spec by assumption.
  destruct (queue b); reflexivity.
- apply (bulkhead_run_fifo evs init b obs Hrun).
Qed.

End Facts.

(** Capacity 1, queue 1: task 0 runs, 1 waits, 2 is turned away, and
    when 0 fails 1 takes its slot. *)
Lemma bulkhead_contract_witness :
run oneAndOne init [Submit 0; Submit 1; Submit 2; Settle 0 false]%nat
= Some ({| activeCount := 1; queue := []; inflight := [1%nat] |},
        [Submitted 0 Started; Submitted 1 Queued;
         Submitted 2 (Rejected saturation); Released 0 (Some 1)]%nat).
Proof.
destruct (bulkhead_contract oneAndOne [Submit 0; Submit 1]%nat
            {| activeCount := 1; queue := [1%nat]; inflight := [0%nat] |}
            [Submitted 0 Started; Submitted 1 Queued]%nat eq_refl)
  as (Hrej & _ & Hset & _).
specialize (Hrej 2%nat 1 eq_refl eq_refl eq_refl).
specialize (Hset 0%nat false (or_introl eq_refl)).
cbn [run]. change (step oneAndOne init (Submit 0)) with
  (Some ({| activeCount := 1; queue := []; inflight := [0%nat] |},
         Submitted 0%nat Started)).
cbn iota. change (step oneAndOne
                    {| activeCount := 1; queue := []; inflight := [0%nat] |}
                    (Submit 1)) with
  (Some ({| activeCount := 1; queue := [1%nat]; inflight := [0%nat] |},
         Submitted 1%nat Queued)).
cbn iota. cbn [step]. rewrite Hrej. cbn iota. cbn [step] in Hset.
destruct (settle oneAndOne _ 0%nat) as [[b1 nx]|]; [|discriminate].
inversion Hset; subst. reflexivity.
Defined.

End BulkheadFacts.

(** ** [parallelLimit] *)

Module ParallelLimitFacts.
Import ParallelLimit.

Lemma lookup_map {A B} (f : A -> B) (l : list A) i :
map f l !! i = option_map f (l !! i).
Proof.
revert i. induction l as [|a l IH]; intros [|i]; cbn; auto.
Qed.

(** Replacing a suspended worker by a suspended one keeps the number of
    suspended workers; replacing it by a returned one lowers it by one. *)
Lemma awaited_insert_awaiting (ws : list Worker) w i j :
ws !! w = Some (Awaiting i) ->
length (omap (fun k => match k with Awaiting n => Some n | _ => None end)
             (<[w := Awaiting j]> ws))
= length (omap (fun k => match k with Awaiting n => Some n | _ => None end) ws).
Proof.
revert w. induction ws as [|k ws IH]; intros w H; [destruct w; discriminate|].
destruct w as [|w]; cbn in H.
- inversion H; subst. reflexivity.
- specialize (IH w H). unfold omap in *. simpl.
  destruct k; simpl; rewrite IH; reflexivity.
Qed.

Lemma awaited_insert_finished (ws : list Worker) w i :
ws !! w = Some (Awaiting i) ->
S (length (omap (fun k => match k with Awaiting n => Some n | _ => None end)
                (<[w := Finished]> ws)))
= length (omap (fun k => match k with Awaiting n => Some n | _ => None end) ws).
Proof.
revert w. induction ws as [|k ws IH]; intros w H; [destruct w; discriminate|].
destruct w as [|w]; cbn in H.
- inversion H; subst. reflexivity.
- specialize (IH w H). unfold omap in *. simpl.
  destruct k; simpl; rewrite <- IH; reflexivity.
Qed.

(** No worker suspended: the list of awaited indices is empty. *)
Lemma awaited_nil_iff (ws : list Worker) :
omap (fun k => match k with Awaiting n => Some n | _ => None end) ws = []
<-> forall w i, ws !! w <> Some (Awaiting i).
Proof.
induction ws as [|k ws IH].
- split; [intros _ w i H; destruct w; discriminate|reflexivity].
- split.
  + intros H. destruct k; cbn in H; try discriminate;
      intros [|w] i Hw; cbn in Hw; try discriminate;
      apply (proj1 IH H w i Hw).
  + intros H. destruct k as [n| |x]; cbn.
    * exfalso. apply (H 0%nat n). reflexivity.
    * apply IH. intros w i Hw. apply (H (S w) i). exact Hw.
    * apply IH. intros w i Hw. apply (H (S w) i). exact Hw.
Qed.

Section Facts.
Context {T : Type}.
Variable values : list T.
Variable limit : Z.

Local Abbreviation tasks := (map Return values).

Lemma length_tasks : length tasks = length values.
Proof. apply length_map. Qed.

Lemma tasks_lookup i v : values !! i = Some v -> tasks !! i = Some (Return v).
Proof. intros H. rewrite lookup_map, H. reflexivity. Qed.

(** [j] workers spawned while indices remain: worker [i] awaits task [i]. *)
Lemma spawn_iter j :
(j <= length values)%nat ->
Nat.iter j (spawn tasks)
  {| currentIndex := 0; results := replicate (length tasks) None;
     workers := []; invokedLog := []; rejected := None |}
= {| currentIndex := j; results := replicate (length tasks) None;
     workers := map Awaiting (seq 0 j); invokedLog := seq 0 j;
     rejected := None |}.
Proof.
induction j as [|j IH]; intros Hj; [reflexivity|].
cbn [Nat.iter nat_rect]. change (nat_rect _ ?x (fun _ => ?f) j) with (Nat.iter j f x).
rewrite IH by lia. unfold spawn, loopHead. cbn [currentIndex].
assert (E : (j <? length tasks)%nat = true)
  by (apply Nat.ltb_lt; rewrite length_tasks; lia).
rewrite E. cbn [currentIndex results workers invokedLog rejected].
rewrite seq_S, map_app. reflexivity.
Qed.

Lemma workerCount_le : (workerCount tasks limit <= length values)%nat.
Proof. unfold workerCount. rewrite length_tasks. lia. Qed.

Lemma start_eq :
start tasks limit
= {| currentIndex := workerCount tasks limit;
     results := replicate (length tasks) None;
     workers := map Awaiting (seq 0 (workerCount tasks limit));
     invokedLog := seq 0 (workerCount tasks limit);
     rejected := None |}.
Proof. unfold start. apply spawn_iter, workerCount_le. Qed.

Lemma lookup_initial_workers k w i :
map Awaiting (seq 0 k) !! w = Some (Awaiting i) -> (w = i /\ i < k)%nat.
Proof.
rewrite lookup_map. destruct (seq 0 k !! w) as [j|] eqn:E; [|discriminate].
cbn. intros H. inversion H; subst. apply lookup_seq in E. lia.
Qed.

Lemma invariant_start : invariant values (start tasks limit).
Proof.
rewrite start_eq. pose proof workerCount_le as Hk. unfold invariant.
cbn [currentIndex results workers invokedLog rejected].
repeat split.
- rewrite length_replicate. apply length_tasks.
- exact Hk.
- intros w i H. apply lookup_initial_workers in H. lia.
- intros i v Hi _ Hno. exfalso. apply (Hno i).
  rewrite lookup_map, lookup_seq_lt by exact Hi. reflexivity.
- intros w H. rewrite lookup_map in H.
  destruct (seq 0 (workerCount tasks limit) !! w); discriminate.
- intros w x H. rewrite lookup_map in H.
  destruct (seq 0 (workerCount tasks limit) !! w); discriminate.
Qed.

(** What [resume] computes when the awaited task fulfils. *)
Lemma resume_spec st w i v :
workers st !! w = Some (Awaiting i) -> values !! i = Some v ->
resume tasks st w
= Some (if (currentIndex st <? length tasks)%nat
        then {| currentIndex := S (currentIndex st);
                results := <[i := Some v]> (results st);
                workers := <[w := Awaiting (currentIndex st)]> (workers st);
                invokedLog := invokedLog st ++ [currentIndex st];
                rejected := rejected st |}
        else {| currentIndex := currentIndex st;
                results := <[i := Some v]> (results st);
                workers := <[w := Finished]> (workers st);
                invokedLog := invokedLog st;
                rejected := rejected st |}).
Proof.
intros Hw Hv. unfold resume. rewrite Hw, (tasks_lookup i v Hv).
unfold loopHead. cbn [currentIndex results workers invokedLog rejected].
destruct (currentIndex st <? length tasks)%nat; reflexivity.
Qed.

Lemma insert_lookup_cases (ws : list Worker) w x w' y :
<[w := x]> ws !! w' = Some y ->
(w' = w /\ y = x) \/ (w' <> w /\ ws !! w' = Some y).
Proof.
intros H. apply list_lookup_insert_Some in H.
destruct H as [(-> & -> & _)|(Hne & H)]; [left|right]; auto.
Qed.

(** One settlement keeps the invariant, keeps the number of workers, and
    completes exactly one task. *)
Lemma resume_invariant st w st' :
invariant values st -> resume tasks st w = Some st' ->
invariant values st' /\
length (workers st') = length (workers st) /\
(currentIndex st' + length (awaited st)
 = S (currentIndex st + length (awaited st')))%nat.
Proof.
intros (I1 & I2 & I3 & I4 & I5 & I6 & I7 & I8) Hres.
destruct (workers st !! w) as [[i| |x]|] eqn:Hw;
  try (unfold resume in Hres; rewrite Hw in Hres; discriminate).
pose proof (I4 w i Hw) as Hi.
destruct (values !! i) as [v|] eqn:Hv;
  [|apply lookup_ge_None_1 in Hv; lia].
rewrite (resume_spec st w i v Hw Hv) in Hres. rewrite length_tasks in Hres.
assert (Hwl : (w < length (workers st))%nat)
  by (eapply lookup_lt_Some; exact Hw).
assert (Hslot : forall i' v', values !! i' = Some v' ->
          (i' = i \/ forall w', workers st !! w' <> Some (Awaiting i')) ->
          (i' < currentIndex st)%nat ->
          <[i := Some v]> (results st) !! i' = Some (Some v')).
{ intros i' v' Hv' Hcase Hlt. destruct (Nat.eq_dec i' i) as [->|Hne].
  - rewrite list_lookup_insert_eq by lia. congruence.
  - rewrite list_lookup_insert_ne by auto.
    destruct Hcase as [?|Hno]; [contradiction|]. apply I5; assumption. }
destruct (currentIndex st <? length values)%nat eqn:E;
  inversion Hres; subst st'; clear Hres;
  unfold invariant, awaited;
  cbn [currentIndex results workers invokedLog rejected].
- apply Nat.ltb_lt in E. split; [|split].
  + repeat split.
    * rewrite length_insert. exact I1.
    * lia.
    * rewrite I3, seq_S. reflexivity.
    * intros w' i' H'. apply insert_lookup_cases in H'.
      destruct H' as [(_ & H')|(_ & H')];
        [inversion H'; lia|apply I4 in H'; lia].
    * intros i' v' Hlt Hv' Hno.
      assert (Hc : i' <> currentIndex st).
      { intros ->. apply (Hno w). apply list_lookup_insert_eq. exact Hwl. }
      apply Hslot; [exact Hv'| |lia].
      destruct (Nat.eq_dec i' i) as [->|Hne]; [left; reflexivity|right].
      intros w' H'. destruct (Nat.eq_dec w' w) as [->|Hwne].
      -- rewrite Hw in H'. inversion H'. congruence.
      -- apply (Hno w'). rewrite list_lookup_insert_ne by auto. exact H'.
    * intros w' H'. apply insert_lookup_cases in H'.
      destruct H' as [(_ & H')|(_ & H')]; [discriminate|].
      apply I6 in H'. lia.
    * intros w' x H'. apply insert_lookup_cases in H'.
      destruct H' as [(_ & H')|(_ & H')]; [discriminate|].
      apply (I7 w' x H').
    * exact I8.
  + apply length_insert.
  + rewrite (awaited_insert_awaiting _ w i) by exact Hw. lia.
- apply Nat.ltb_ge in E. split; [|split].
  + repeat split.
    * rewrite length_insert. exact I1.
    * exact I2.
    * exact I3.
    * intros w' i' H'. apply insert_lookup_cases in H'.
      destruct H' as [(_ & H')|(_ & H')]; [discriminate|apply I4 in H'; lia].
    * intros i' v' Hlt Hv' Hno. apply Hslot; [exact Hv'| |lia].
      destruct (Nat.eq_dec i' i) as [->|Hne]; [left; reflexivity|right].
      intros w' H'. destruct (Nat.eq_dec w' w) as [->|Hwne].
      -- rewrite Hw in H'. inversion H'. congruence.
      -- apply (Hno w'). rewrite list_lookup_insert_ne by auto. exact H'.
    * intros _ _. lia.
    * intros w' x H'. apply insert_lookup_cases in H'.
      destruct H' as [(_ & H')|(_ & H')]; [discriminate|].
      apply (I7 w' x H').
    * exact I8.
  + apply length_insert.
  + pose proof (awaited_insert_finished _ w i Hw) as Hc. lia.
Qed.

(** A run from a state satisfying the invariant. *)
Lemma parallelLimit_run_invariant sched : forall st st',
invariant values st -> run tasks st sched = Some st' ->
invariant values st' /\
length (workers st') = length (workers st) /\
(currentIndex st' + length (awaited st)
 = length sched + currentIndex st + length (awaited st'))%nat.
Proof.
induction sched as [|w sched IH]; intros st st' Hinv Hrun; cbn [run] in Hrun.
- inversion Hrun; subst. split; [exact Hinv|split; [reflexivity|cbn; lia]].
- destruct (resume tasks st w) as [st1|] eqn:Hres; [|discriminate].
  destruct (resume_invariant st w st1 Hinv Hres) as (Hinv1 & Hl1 & Hc1).
  destruct (IH st1 st' Hinv1 Hrun) as (Hinv' & Hl' & Hc').
  split; [exact Hinv'|split; [congruence|cbn [length]; lia]].
Qed.

Lemma awaited_initial k :
omap (fun w => match w with Awaiting n => Some n | _ => None end)
     (map Awaiting (seq 0 k))
= seq 0 k.
Proof.
generalize 0%nat. induction k as [|k IH]; intros a; [reflexivity|].
cbn [seq map]. unfold omap in *. simpl. f_equal. apply IH.
Qed.

(** A worker that is neither suspended nor rejected has returned. *)
Lemma settled_finished st :
invariant values st -> awaited st = [] ->
forall w k, workers st !! w = Some k -> k = Finished.
Proof.
intros (_ & _ & _ & _ & _ & _ & I7 & _) Haw w k Hk.
destruct k as [i| |x]; [|reflexivity|].
- exfalso. exact (proj1 (awaited_nil_iff (workers st)) Haw w i Hk).
- exfalso. exact (I7 w x Hk).
Qed.

(** What holds after any run of [parallelLimit] on succeeding tasks. *)
Lemma parallelLimit_run_facts (sched : list nat) (st : State T) :
1 <= limit ->
run (map Return values) (start (map Return values) limit) sched = Some st ->
workers (start (map Return values) limit)
= map Awaiting
    (seq 0 (Z.to_nat (Z.min limit (Z.of_nat (length values))))) /\
invokedLog st = seq 0 (currentIndex st) /\
(length sched <= length values)%nat /\
((length sched < length values)%nat ->
   outcome st = None /\
   exists w st', resume (map Return values) st w = Some st') /\
((length sched = length values)%nat ->
   outcome st = Some (Return (map Some values))).
Proof.
intros Hlimit Hrun.
destruct (parallelLimit_run_invariant sched _ _ invariant_start Hrun) as (Hinv & Hlen & Hcnt).
rewrite start_eq in Hlen, Hcnt.
cbn [workers currentIndex] in Hlen, Hcnt. unfold awaited at 1 in Hcnt.
cbn [workers] in Hcnt. rewrite awaited_initial in Hcnt.
rewrite length_map, length_seq in Hlen. rewrite length_seq in Hcnt.
assert (Hci : currentIndex st = (length sched + length (awaited st))%nat) by lia.
clear Hcnt. pose proof Hinv as (I1 & I2 & I3 & I4 & I5 & I6 & I7 & I8).
split; [|split; [|split; [|split]]].
- rewrite start_eq. cbn [workers]. unfold workerCount.
  rewrite length_tasks. reflexivity.
- exact I3.
- lia.
- intros Hlt.
  destruct (awaited st) as [|i rest] eqn:Haw.
  + exfalso.
    assert (Hk : (0 < length (workers st))%nat).
    { rewrite Hlen. unfold workerCount. rewrite length_tasks. lia. }
    apply lookup_lt_is_Some_2 in Hk. destruct Hk as [k Hk].
    pose proof (settled_finished st Hinv Haw 0%nat k Hk) as ->.
    apply I6 in Hk. cbn [length] in Hci. lia.
  + assert (Hin : i ∈ awaited st) by (rewrite Haw; left).
    unfold awaited in Hin. apply list_elem_of_omap in Hin.
    destruct Hin as (k & Hk & Hki). destruct k as [i'| |x]; try discriminate.
    inversion Hki; subst i'. apply list_elem_of_lookup in Hk.
    destruct Hk as [w Hw]. split.
    * unfold outcome. rewrite I8.
      destruct (forallb isFinished (workers st)) eqn:E; [|reflexivity].
      rewrite forallb_forall in E.
      assert (Hf : isFinished (Awaiting i) = true).
      { apply E. apply list_elem_of_In. eapply list_elem_of_lookup_2. exact Hw. }
      discriminate.
    * pose proof (I4 w i Hw) as Hi.
      destruct (values !! i) as [v|] eqn:Hv;
        [|apply lookup_ge_None_1 in Hv; lia].
      exists w. rewrite (resume_spec st w i v Hw Hv). eauto.
- intros Heq.
  assert (Haw : awaited st = []) by (apply length_zero_iff_nil; lia).
  assert (Hcn : currentIndex st = length values)
    by (rewrite Hci, Haw; cbn; lia).
  unfold outcome. rewrite I8.
  assert (E : forallb isFinished (workers st) = true).
  { apply forallb_forall. intros k Hk. apply list_elem_of_In in Hk.
    apply list_elem_of_lookup in Hk. destruct Hk as [w Hw].
    rewrite (settled_finished st Hinv Haw w k Hw). reflexivity. }
  rewrite E. do 2 f_equal. apply list_eq. intros i.
  rewrite lookup_map. destruct (values !! i) as [v|] eqn:Hv.
  + apply I5; [|exact Hv|].
    * apply lookup_lt_Some in Hv. lia.
    * intros w. exact (proj1 (awaited_nil_iff (workers st)) Haw w i).
  + apply lookup_ge_None_2. apply lookup_ge_None_1 in Hv. lia.
Qed.


Lemma run_snoc sched : forall (st : State T) w,
run tasks st (sched ++ [w])
= match run tasks st sched with
  | Some st' => resume tasks st' w
  | None => None
  end.
Proof.
induction sched as [|w0 sched IH]; intros st w; cbn [run app].
- destruct (resume tasks st w); reflexivity.
- destruct (resume tasks st w0) as [st1|]; [apply IH|reflexivity].
Qed.

(** Settlement steps can always be carried on up to [tasks.length]. *)
Lemma schedule_exists m :
1 <= limit -> (m <= length values)%nat ->
exists sched st,
  length sched = m /\ run tasks (start tasks limit) sched = Some st.
Proof.
intros Hlimit. induction m as [|m IH]; intros Hm.
- exists [], (start tasks limit). split; reflexivity.
- destruct IH as (sched & st & Hlen & Hrun); [lia|].
  destruct (parallelLimit_run_facts sched st Hlimit Hrun)
    as (_ & _ & _ & Hprog & _).
  destruct Hprog as (_ & w & st' & Hres); [lia|].
  exists (sched ++ [w]), st'. split.
  + rewrite length_app. cbn [length]. lia.
  + rewrite run_snoc, Hrun. exact Hres.
Qed.

(** C7. For [limit >= 1] and tasks that all succeed, task [i] with
    [values[i]]: [parallelLimit] spawns [min(limit, tasks.length)]
    workers, worker [j] starting on index [j]; along every schedule,
    that is whatever the order in which the tasks complete, the indices
    handed out by the cursor are [0, 1, 2, ..] in order, each once; a
    run makes at most [tasks.length] settlement steps; before that
    number is reached the returned promise is pending and some worker
    can be resumed; when it is reached the promise is fulfilled with
    the array of the same length whose slot [i] holds [values[i]], for
    every [i]; and a run of that many steps exists. *)
Theorem parallelLimit_position_stable (sched : list nat) (st : State T) :
1 <= limit ->
run (map Return values) (start (map Return values) limit) sched = Some st ->
workers (start (map Return values) limit)
= map Awaiting
    (seq 0 (Z.to_nat (Z.min limit (Z.of_nat (length values))))) /\
invokedLog st = seq 0 (currentIndex st) /\
(length sched <= length values)%nat /\
((length sched < length values)%nat ->
   outcome st = None /\
   exists w st', resume (map Return values) st w = Some st') /\
((length sched = length values)%nat ->
   outcome st = Some (Return (map Some values))) /\
(exists sched' st',
   run (map Return values) (start (map Return values) limit) sched' = Some st' /\
   outcome st' = Some (Return (map Some values))).
Proof.
intros Hlimit Hrun.
destruct (parallelLimit_run_facts sched st Hlimit Hrun)
  as (H1 & H2 & H3 & H4 & H5).
repeat (split; [assumption|]).
destruct (schedule_exists (length values) Hlimit (Nat.le_refl _))
  as (sched' & st' & Hlen & Hrun').
exists sched', st'. split; [exact Hrun'|].
apply (parallelLimit_run_facts sched' st' Hlimit Hrun'). exact Hlen.
Qed.

End Facts.

(** Three tasks, two workers, task 1 completing before task 0: the
    results still come back in task order. *)
Lemma parallelLimit_position_stable_witness :
exists st,
  run (map Return threeValues) (start (map Return threeValues) 2) slowFirst
  = Some st /\
  outcome st = Some (Return [Some 10; Some 20; Some 30]).
Proof.
eexists. split; [reflexivity|].
apply (parallelLimit_position_stable threeValues 2 slowFirst);
  [lia|reflexivity|reflexivity].
Defined.

End ParallelLimitFacts.

(** ** [sequence], [pipeline], [batch] *)

Module CombinatorsFacts.
Import Combinators.

Section SequenceFacts.
Context {T : Type}.

(** A prefix of succeeding tasks is run through, in order. *)
Lemma sequenceFrom_prefix (vs : list T) : forall rest index acc,
sequenceFrom (map Return vs ++ rest) index acc
= (fst (sequenceFrom rest (index + length vs) (acc ++ vs)),
   seq index (length vs)
     ++ snd (sequenceFrom rest (index + length vs) (acc ++ vs))).
Proof.
induction vs as [|v vs IH]; intros rest index acc.
- cbn [map app length seq]. rewrite Nat.add_0_r, app_nil_r.
  destruct (sequenceFrom rest index acc); reflexivity.
- cbn [map app length seq sequenceFrom]. rewrite IH.
  replace (S index + length vs)%nat with (index + S (length vs))%nat by lia.
  rewrite <- List.app_assoc. reflexivity.
Qed.

(** X1. When every task succeeds, [sequence] invokes the tasks one after
    the other in input order and returns their values in input order. *)
Theorem sequence_runs_in_order (values : list T) :
sequence (map Return values) = (Return values, seq 0 (length values)).
Proof.
unfold sequence. rewrite <- (app_nil_r (map Return values)).
rewrite sequenceFrom_prefix. cbn. rewrite app_nil_r. reflexivity.
Qed.

(** X2. When the tasks before position [j] succeed and task [j] fails,
    [sequence] rejects with that very failure, having invoked exactly
    the tasks [0..j]: the tasks after the failing one are never run and
    the values obtained so far are dropped. *)
Theorem sequence_aborts_on_first_failure
  (before : list T) (x : Value) (rest : list (Completion T)) :
sequence (map Return before ++ Throw x :: rest)
= (Throw x, seq 0 (S (length before))).
Proof.
unfold sequence. rewrite sequenceFrom_prefix. cbn [sequenceFrom fst snd].
rewrite seq_S. reflexivity.
Qed.

(** X3. A pipeline over [stages1 ++ stages2] is the pipeline over
    [stages1] followed, on its result, by the pipeline over [stages2];
    if [stages1] fails, no stage of [stages2] is invoked and the failure
    is passed on unchanged. *)
Theorem pipeline_app (stages1 stages2 : list (T -> Completion T)) (input : T) :
pipeline input (stages1 ++ stages2)
= match pipeline input stages1 with
  | (Return y, fed) =>
      (fst (pipeline y stages2), fed ++ snd (pipeline y stages2))
  | (Throw x, fed) => (Throw x, fed)
  end.
Proof.
revert input. induction stages1 as [|stage stages1 IH]; intros input.
- cbn [app pipeline]. destruct (pipeline input stages2); reflexivity.
- cbn [app pipeline]. destruct (stage input) as [y|x]; [|reflexivity].
  rewrite IH. destruct (pipeline y stages1) as [[z|x] fed]; reflexivity.
Qed.

End SequenceFacts.

Section BatchFacts.
Context {A B : Type}.
Variable items : list A.

(** Inside the array and with a non-negative width, [slice] is [take]
    after [drop]. *)
Lemma slice_take_drop (i size : Z) :
0 <= i < Z.of_nat (length items) -> 0 <= size ->
slice items i (i + size) = take (Z.to_nat size) (drop (Z.to_nat i) items).
Proof.
intros Hi Hs. unfold slice, relativeIndex.
assert (E1 : (i <? 0) = false) by (apply Z.ltb_ge; lia).
assert (E2 : (i + size <? 0) = false) by (apply Z.ltb_ge; lia).
rewrite E1, E2. rewrite (Z.min_l i) by lia.
destruct (Z.le_gt_cases (i + size) (Z.of_nat (length items))) as [Hle|Hgt].
- rewrite Z.min_l by lia. f_equal. lia.
- rewrite Z.min_r by lia.
  rewrite !take_ge; [reflexivity| |]; rewrite length_drop; lia.
Qed.

Lemma chunks_concat (size : nat) (r : nat) : forall k,
(length items <= (k + r) * size)%nat ->
concat (map (fun j => take size (drop (j * size) items)) (seq k r))
= drop (k * size) items.
Proof.
induction r as [|r IH]; intros k H.
- cbn. symmetry. apply drop_ge. lia.
- cbn [seq map concat]. rewrite IH by lia.
  replace (S k * size)%nat with (k * size + size)%nat by lia.
  rewrite <- drop_drop. apply take_drop.
Qed.

Lemma chunkCount_spec (size : Z) :
1 <= size ->
(length items <= chunkCount (length items) size * Z.to_nat size)%nat /\
(forall k, (k < chunkCount (length items) size)%nat ->
   (k * Z.to_nat size < length items)%nat).
Proof.
intros Hs. unfold chunkCount.
set (n := Z.of_nat (length items)).
assert (Hn : 0 <= n) by (unfold n; lia).
pose proof (Z.div_mod (n + size - 1) size ltac:(lia)) as Hdm.
pose proof (Z.mod_pos_bound (n + size - 1) size ltac:(lia)) as Hmod.
set (q := (n + size - 1) / size) in *.
assert (Hq : 0 <= q) by (apply Z.div_pos; lia).
split.
- assert (n <= q * size) by nia. 
  apply Nat2Z.inj_le. rewrite Nat2Z.inj_mul, !Z2Nat.id by lia. exact H.
- intros k Hk. assert (Hk' : Z.of_nat k < q) by lia.
  assert (Z.of_nat k * size < n) by nia.
  apply Nat2Z.inj_lt. rewrite Nat2Z.inj_mul, Z2Nat.id by lia. exact H.
Qed.

Variable batchSize : Z.
Variable g : nat -> list A -> list B.

(** With a processor that succeeds, [r] more chunks are cut from
    position [k * batchSize] on, and one more test ends the loop. *)
Lemma batchLoop_chunks (r : nat) : forall k fuel acc,
1 <= batchSize ->
(length items <= (k + r) * Z.to_nat batchSize)%nat ->
(forall j, (k <= j < k + r)%nat -> (j * Z.to_nat batchSize < length items)%nat) ->
batchLoop batchSize (fun call chunk => Return (g call chunk)) items
  (r + S fuel) (Z.of_nat k * batchSize) k acc
= Some (Return (acc ++ outputs g k (map (chunkAt items batchSize) (seq k r))),
        map (chunkAt items batchSize) (seq k r)).
Proof.
induction r as [|r IH]; intros k fuel acc Hs Hend Hlt.
- cbn [plus batchLoop seq map outputs].
  assert (E : (Z.of_nat k * batchSize <? Z.of_nat (length items)) = false).
  { apply Z.ltb_ge. rewrite Nat.add_0_r in Hend.
    apply Nat2Z.inj_le in Hend. rewrite Nat2Z.inj_mul, Z2Nat.id in Hend; lia. }
  rewrite E, app_nil_r. reflexivity.
- replace (S r + S fuel)%nat with (S (r + S fuel)) by lia.
  cbn [batchLoop seq map outputs].
  assert (Hk : (k * Z.to_nat batchSize < length items)%nat) by (apply Hlt; lia).
  assert (Hk' : Z.of_nat k * batchSize < Z.of_nat (length items)).
  { apply Nat2Z.inj_lt in Hk. rewrite Nat2Z.inj_mul, Z2Nat.id in Hk; lia. }
  assert (E : (Z.of_nat k * batchSize <? Z.of_nat (length items)) = true)
    by (apply Z.ltb_lt; exact Hk').
  rewrite E.
  assert (Hchunk : slice items (Z.of_nat k * batchSize)
                     (Z.of_nat k * batchSize + batchSize)
                   = chunkAt items batchSize k).
  { rewrite slice_take_drop by lia. unfold chunkAt. do 2 f_equal.
    rewrite Z2Nat.inj_mul, Nat2Z.id by lia. reflexivity. }
  rewrite Hchunk.
  replace (Z.of_nat k * batchSize + batchSize) with (Z.of_nat (S k) * batchSize)
    by lia.
  rewrite IH; [|exact Hs|lia|intros j Hj; apply Hlt; lia].
  rewrite <- List.app_assoc. reflexivity.
Qed.

(** X4. For [batchSize >= 1] and a processor that succeeds on every
    chunk, [batch] terminates (within [length items + 1] loop tests)
    having called the processor [ceil(n / batchSize)] times, call [j]
    on the items at positions [j*batchSize .. (j+1)*batchSize - 1] (the
    last chunk may be shorter); the chunks concatenated are the input,
    and the result is the concatenation of the outputs in call order. *)
Theorem batch_chunks_cover_items (fuel : nat) :
1 <= batchSize ->
(length items < fuel)%nat ->
batch batchSize (fun call chunk => Return (g call chunk)) items fuel
= Some (Return (outputs g 0
                  (map (chunkAt items batchSize)
                       (seq 0 (chunkCount (length items) batchSize)))),
        map (chunkAt items batchSize)
            (seq 0 (chunkCount (length items) batchSize))) /\
concat (map (chunkAt items batchSize)
            (seq 0 (chunkCount (length items) batchSize)))
= items.
Proof.
intros Hs Hfuel. destruct (chunkCount_spec batchSize Hs) as [Hend Hlt].
set (m := chunkCount (length items) batchSize) in *.
assert (Hm : (m <= length items)%nat).
{ destruct m as [|m']; [lia|]. specialize (Hlt m' ltac:(lia)).
  assert (1 <= Z.to_nat batchSize)%nat by lia. nia. }
split.
- unfold batch. replace fuel with (m + S (fuel - m - 1))%nat by lia.
  change 0 with (Z.of_nat 0 * batchSize).
  rewrite batchLoop_chunks; [reflexivity|exact Hs|exact Hend|].
  intros j Hj. apply Hlt. lia.
- unfold chunkAt. rewrite (chunks_concat (Z.to_nat batchSize) m 0) by exact Hend.
  reflexivity.
Qed.

(** With [batchSize <= 0] the index never passes the end. *)
Lemma batchLoop_stuck (fuel : nat) : forall i call acc,
batchSize <= 0 -> i <= 0 -> items <> [] ->
batchLoop batchSize (fun call chunk => Return (g call chunk)) items
  fuel i call acc = None.
Proof.
induction fuel as [|fuel IH]; intros i call acc Hs Hi Hne; [reflexivity|].
cbn [batchLoop].
assert (E : (i <? Z.of_nat (length items)) = true).
{ apply Z.ltb_lt. destruct items; [contradiction|cbn [length]; lia]. }
rewrite E, IH by (auto; lia). reflexivity.
Qed.

(** X5. For [batchSize <= 0], a non-empty input and a processor that
    succeeds, the loop of [batch] never ends: no number of iterations
    brings the index past the end of the input. *)
Theorem batch_nonpositive_size_diverges (fuel : nat) :
batchSize <= 0 -> items <> [] ->
batch batchSize (fun call chunk => Return (g call chunk)) items fuel = None.
Proof.
intros Hs Hne. unfold batch. apply batchLoop_stuck; [exact Hs|lia|exact Hne].
Qed.

End BatchFacts.

(** Ten items in chunks of three: four calls, on 3, 3, 3 and 1 items. *)
Lemma batch_chunks_cover_items_witness :
batch 3 (fun _ chunk => Return chunk) (seq 0 10) 11
= Some (Return (seq 0 10),
        [[0; 1; 2]; [3; 4; 5]; [6; 7; 8]; [9]]%nat).
Proof.
destruct (batch_chunks_cover_items (seq 0 10) 3 (fun _ c => c) 11) as [H _].
- lia.
- cbn; lia.
- exact H.
Defined.

(** [batch(0, p)] on one item spins. *)
Lemma batch_nonpositive_size_diverges_witness :
batch 0 (fun _ chunk => Return chunk) [7] 1000 = None.
Proof.
apply (batch_nonpositive_size_diverges [7] 0 (fun _ c => c) 1000).
- lia.
- discriminate.
Defined.

End CombinatorsFacts.

(** ** [raceSuccess] *)

Module RaceSuccessFacts.
Import Combinators.

Lemma length_arraySet errors index x :
length (arraySet errors index x) = Nat.max (length errors) (S index).
Proof.
unfold arraySet. destruct (index <? length errors)%nat eqn:E.
- apply Nat.ltb_lt in E. rewrite length_insert. lia.
- apply Nat.ltb_ge in E. rewrite !length_app, length_replicate. cbn. lia.
Qed.

Lemma lookup_arraySet_eq errors index x :
arraySet errors index x !! index = Some (Some x).
Proof.
unfold arraySet. destruct (index <? length errors)%nat eqn:E.
- apply Nat.ltb_lt in E. apply list_lookup_insert_eq. exact E.
- apply Nat.ltb_ge in E. rewrite lookup_app_r by lia.
  rewrite lookup_app_r by (rewrite length_replicate; lia).
  rewrite length_replicate. replace (index - length errors - (index - length errors))%nat
    with 0%nat by lia. reflexivity.
Qed.

Lemma lookup_arraySet_old errors index x j y :
j <> index -> errors !! j = Some y -> arraySet errors index x !! j = Some y.
Proof.
intros Hne Hj. unfold arraySet. destruct (index <? length errors)%nat.
- rewrite list_lookup_insert_ne by auto. exact Hj.
- apply lookup_app_l_Some. exact Hj.
Qed.

(** Distinct indices below [n]: at most [n] of them, and [n] of them
    are all. *)
Lemma indices_length (l : list nat) n :
NoDup l -> (forall i, i ∈ l -> (i < n)%nat) -> (length l <= n)%nat.
Proof.
intros Hnd Hlt.
assert (H : l ⊆+ seq 0 n).
{ apply NoDup_submseteq; [exact Hnd|]. intros i Hi.
  apply elem_of_seq. specialize (Hlt i Hi). lia. }
apply submseteq_length in H. rewrite length_seq in H. exact H.
Qed.

Section Facts.
Context {T : Type}.
Variable tasks : list (Completion T).

Lemma raceRun_app (order1 order2 : list nat) : forall r,
raceRun tasks r (order1 ++ order2)
= match raceRun tasks r order1 with
  | Some r' => raceRun tasks r' order2
  | None => None
  end.
Proof.
induction order1 as [|i order1 IH]; intros r; cbn [raceRun app]; [reflexivity|].
destruct (raceSettle tasks r i); [apply IH|reflexivity].
Qed.

Lemma raceRun_app_one (order : list nat) (i : nat) r :
raceRun tasks r (order ++ [i])
= match raceRun tasks r order with
  | Some r' => raceSettle tasks r' i
  | None => None
  end.
Proof.
rewrite raceRun_app. destruct (raceRun tasks r order) as [r'|]; [|reflexivity].
cbn [raceRun]. destruct (raceSettle tasks r' i); reflexivity.
Qed.

(** A settled promise stays as it is, whatever settles afterwards. *)
Lemma raceRun_settled (order : list nat) : forall r s,
settled r = Some s ->
(forall i, i ∈ order -> (i < length tasks)%nat) ->
exists r', raceRun tasks r order = Some r' /\ settled r' = Some s.
Proof.
induction order as [|i order IH]; intros r s Hs Hv.
- exists r. split; [reflexivity|exact Hs].
- cbn [raceRun]. assert (Hi : (i < length tasks)%nat) by (apply Hv; left).
  apply lookup_lt_is_Some_2 in Hi. destruct Hi as [c Hc].
  assert (Hstep : exists r1, raceSettle tasks r i = Some r1 /\ settled r1 = Some s).
  { unfold raceSettle. rewrite Hc. destruct c as [v|x].
    - eexists. split; [reflexivity|]. unfold settleWith. cbn. rewrite Hs. reflexivity.
    - cbn [remaining errors settled].
      destruct (remaining r - 1 =? 0); eexists; (split; [reflexivity|]);
        unfold settleWith; cbn; rewrite ?Hs; reflexivity. }
  destruct Hstep as (r1 & Hr1 & Hs1). rewrite Hr1.
  apply (IH r1 s Hs1). intros j Hj. apply Hv. right. exact Hj.
Qed.

(** While failures come in and some task is still out, the promise
    stays pending and the failures are filed by position. *)
Lemma raceRun_failures (order : list nat) : forall r,
settled r = None ->
(forall i, i ∈ order -> exists x, tasks !! i = Some (Throw x)) ->
Z.of_nat (length order) < remaining r ->
exists r',
  raceRun tasks r order = Some r' /\
  settled r' = None /\
  remaining r' = remaining r - Z.of_nat (length order) /\
  (forall j y, errors r !! j = Some (Some y) -> errors r' !! j = Some (Some y) \/ j ∈ order) /\
  (forall i x, i ∈ order -> tasks !! i = Some (Throw x) ->
     errors r' !! i = Some (Some x)) /\
  (forall j y, (forall k, k ∈ order -> k <> j) ->
     errors r !! j = Some y -> errors r' !! j = Some y) /\
  (length (errors r') <= Nat.max (length (errors r)) (length tasks))%nat.
Proof.
induction order as [|i order IH]; intros r Hs Hf Hrem.
- exists r. cbn [raceRun length]. repeat split; try assumption; try lia.
  + intros j y H. left. exact H.
  + intros i x Hi. inversion Hi.
  + intros j y _ H. exact H.
- cbn [raceRun]. destruct (Hf i) as [x Hx]; [left|].
  unfold raceSettle at 1. rewrite Hx. cbn [remaining errors settled].
  cbn [length] in Hrem.
  assert (E : (remaining r - 1 =? 0) = false) by (apply Z.eqb_neq; lia).
  rewrite E.
  set (r1 := {| errors := arraySet (errors r) i x;
                remaining := remaining r - 1; settled := settled r |}).
  destruct (IH r1) as (r' & Hrun & Hs' & Hrem' & Hkeep & Hnew & Hold & Hlen).
  + exact Hs.
  + intros j Hj. apply Hf. right. exact Hj.
  + cbn [remaining r1]. lia.
  + exists r'. split; [exact Hrun|]. split; [exact Hs'|].
    split; [cbn [remaining r1 length] in *; lia|].
    assert (Hi : (i < length tasks)%nat) by (eapply lookup_lt_Some; exact Hx).
    split; [|split; [|split]].
    * intros j y Hj. destruct (Nat.eq_dec j i) as [->|Hne]; [right; left|].
      destruct (Hkeep j y) as [H|H]; [|left; exact H|right; right; exact H].
      cbn [errors r1]. apply lookup_arraySet_old; assumption.
    * intros j y Hj Hy. apply elem_of_cons in Hj. destruct Hj as [->|Hj].
      -- assert (y = x) by congruence. subst y.
         destruct (Hkeep i x) as [H|H]; [|exact H|].
         ++ cbn [errors r1]. apply lookup_arraySet_eq.
         ++ apply Hnew; assumption.
      -- apply Hnew; assumption.
    * intros j y Hno Hy. apply Hold.
      -- intros k Hk. apply Hno. right. exact Hk.
      -- cbn [errors r1]. apply lookup_arraySet_old; [|exact Hy].
         intros ->. apply (Hno i); [left|reflexivity].
    * cbn [errors r1] in Hlen. rewrite length_arraySet in Hlen. lia.
Qed.

End Facts.

Section Theorems.
Context {T : Type}.

(** X6. When every one of [n >= 1] tasks fails, then whatever the order
    in which they fail, [raceSuccess] stays pending until the last
    failure and then rejects with the error "All tasks failed" whose
    [errors] array has exactly [n] entries, entry [i] being the failure
    of task [i]. *)
Theorem raceSuccess_all_failures_by_position
  (xs : list Value) (pre : list nat) (last : nat) :
pre ++ [last] ≡ₚ seq 0 (length xs) ->
(exists r, raceSuccess (T := T) (map Throw xs) pre = Some r /\ settled r = None) /\
(exists r, raceSuccess (T := T) (map Throw xs) (pre ++ [last]) = Some r /\
   settled r = Some (RejectedWith (newError "All tasks failed")
                                  (Some (map Some xs)))).
Proof.
intros Hperm. set (tasks := map (@Throw T) xs).
assert (Hn : length tasks = length xs) by apply length_map.
assert (Hlen : (length pre + 1 = length xs)%nat).
{ apply Permutation_length in Hperm.
  rewrite length_app, length_seq in Hperm. exact Hperm. }
assert (Hin : forall i, i ∈ pre ++ [last] <-> (i < length xs)%nat).
{ intros i. rewrite Hperm, elem_of_seq. lia. }
assert (Htask : forall i, i ∈ pre ++ [last] ->
          exists x, tasks !! i = Some (Throw x) /\ xs !! i = Some x).
{ intros i Hi. apply Hin in Hi. apply lookup_lt_is_Some_2 in Hi.
  destruct Hi as [x Hx]. exists x. split; [|exact Hx].
  unfold tasks. rewrite ParallelLimitFacts.lookup_map, Hx. reflexivity. }
assert (Hstart : raceStart tasks
                 = {| errors := []; remaining := Z.of_nat (length tasks);
                      settled := None |}).
{ unfold raceStart. cbn [remaining].
  assert (E : (Z.of_nat (length tasks) =? 0) = false)
    by (apply Z.eqb_neq; lia).
  rewrite E. reflexivity. }
destruct (raceRun_failures tasks pre (raceStart tasks))
  as (r & Hrun & Hs & Hrem & _ & Hnew & _ & Hl).
{ rewrite Hstart. reflexivity. }
{ intros i Hi. destruct (Htask i) as (x & Hx & _);
    [apply elem_of_app; left; exact Hi|]. exists x. exact Hx. }
{ rewrite Hstart. cbn [remaining]. lia. }
split; [exists r; split; assumption|].
unfold raceSuccess. rewrite raceRun_app_one, Hrun.
destruct (Htask last) as (x & Hx & Hxs);
  [apply elem_of_app; right; left|].
unfold raceSettle. rewrite Hx. cbn [remaining errors settled].
assert (E : (remaining r - 1 =? 0) = true).
{ apply Z.eqb_eq. rewrite Hrem, Hstart. cbn [remaining]. lia. }
rewrite E. eexists. split; [reflexivity|].
unfold settleWith. cbn [settled errors]. rewrite Hs. do 3 f_equal.
set (E' := arraySet (errors r) last x).
assert (Hall : forall i y, xs !! i = Some y -> E' !! i = Some (Some y)).
{ intros i y Hy. unfold E'.
  destruct (Nat.eq_dec i last) as [->|Hne].
  - assert (y = x) by congruence. subst. apply lookup_arraySet_eq.
  - apply lookup_arraySet_old; [exact Hne|]. apply Hnew.
    + assert (Hi : i ∈ pre ++ [last]) by (apply Hin; eapply lookup_lt_Some; exact Hy).
      apply elem_of_app in Hi. destruct Hi as [Hi|Hi]; [exact Hi|].
      apply list_elem_of_singleton in Hi. contradiction.
    + unfold tasks. rewrite ParallelLimitFacts.lookup_map, Hy. reflexivity. }
assert (HlE : (length E' <= length xs)%nat).
{ unfold E'. rewrite length_arraySet. rewrite Hstart in Hl. cbn [errors length] in Hl.
  assert (last < length xs)%nat by (apply Hin, elem_of_app; right; left). lia. }
apply list_eq. intros i. rewrite ParallelLimitFacts.lookup_map.
destruct (xs !! i) as [y|] eqn:Hy.
- apply Hall. exact Hy.
- apply lookup_ge_None_2. apply lookup_ge_None_1 in Hy. lia.
Qed.

(** X7. If the tasks whose promises settle first all fail and then a
    task succeeds, [raceSuccess] resolves with the value of that task,
    and nothing that settles later changes this. *)
Theorem raceSuccess_first_success_wins
  (tasks : list (Completion T)) (pre : list nat) (i : nat) (v : T)
  (post : list nat) :
NoDup (i :: pre) ->
(forall j, j ∈ pre -> exists x, tasks !! j = Some (Throw x)) ->
tasks !! i = Some (Return v) ->
(forall j, j ∈ post -> (j < length tasks)%nat) ->
exists r, raceSuccess tasks (pre ++ i :: post) = Some r /\
          settled r = Some (Resolved v).
Proof.
intros Hnd Hpre Hi Hpost.
assert (Hlen : (length (i :: pre) <= length tasks)%nat).
{ apply indices_length; [exact Hnd|]. intros j Hj.
  apply elem_of_cons in Hj. destruct Hj as [->|Hj].
  - eapply lookup_lt_Some. exact Hi.
  - destruct (Hpre j Hj) as [x Hx]. eapply lookup_lt_Some. exact Hx. }
cbn [length] in Hlen.
assert (Hstart : raceStart tasks
                 = {| errors := []; remaining := Z.of_nat (length tasks);
                      settled := None |}).
{ unfold raceStart. cbn [remaining].
  assert (E : (Z.of_nat (length tasks) =? 0) = false)
    by (apply Z.eqb_neq; lia).
  rewrite E. reflexivity. }
destruct (raceRun_failures tasks pre (raceStart tasks))
  as (r & Hrun & Hs & _).
{ rewrite Hstart. reflexivity. }
{ exact Hpre. }
{ rewrite Hstart. cbn [remaining]. lia. }
unfold raceSuccess. rewrite raceRun_app, Hrun. cbn [raceRun].
unfold raceSettle at 1. rewrite Hi.
apply raceRun_settled; [|exact Hpost].
unfold settleWith. cbn [settled]. rewrite Hs. reflexivity.
Qed.

End Theorems.

(** Three tasks failing in the order 2, 0, 1. *)
Lemma raceSuccess_all_failures_by_position_witness :
exists r,
  raceSuccess (T := Z) (map Throw [VString "a"; VString "b"; VString "c"])
    [2; 0; 1]%nat = Some r /\
  settled r = Some (RejectedWith (newError "All tasks failed")
                      (Some [Some (VString "a"); Some (VString "b");
                             Some (VString "c")])).
Proof.
apply (raceSuccess_all_failures_by_position
         [VString "a"; VString "b"; VString "c"] [2; 0]%nat 1%nat).
cbn. transitivity [0; 2; 1]%nat; [apply perm_swap|].
apply perm_skip, perm_swap.
Defined.

(** Task 2 fails first, then task 1 succeeds, then task 0 succeeds. *)
Lemma raceSuccess_first_success_wins_witness :
exists r,
  raceSuccess [Return 10; Return 20; Throw (VString "c")] [2; 1; 0]%nat
  = Some r /\
  settled r = Some (Resolved 20).
Proof.
apply (raceSuccess_first_success_wins
         [Return 10; Return 20; Throw (VString "c")] [2%nat] 1%nat 20 [0%nat]).
- apply NoDup_cons. split; [|apply NoDup_singleton].
  intros H. apply list_elem_of_singleton in H. discriminate.
- intros j Hj. apply list_elem_of_singleton in Hj. subst.
  eexists. reflexivity.
- reflexivity.
- intros j Hj. apply list_elem_of_singleton in Hj. subst. cbn. lia.
Defined.

End RaceSuccessFacts.

(** ** More on [retryAsync], and [retry] *)

Module RetryMoreFacts.
Import Retry AsyncMore.

Section Shape.
Context {T : Type}.
Variable fn : nat -> Completion T.
Variable o : RetryOptions.



(** X25. When, at an attempt before the last, the task fails and
    [shouldRetry] or [onRetry] itself throws, [retryAsync] stops there
    and rejects with what the callback threw, in place of the task's
    failure: no sleep follows and the task is not invoked again. *)
Theorem retry_callback_failure_replaces_task_failure
  (x : nat -> Value) (j : nat) (y : Value) :
(j < retries o)%nat ->
(forall i, (i < j)%nat -> retried fn o x i) ->
fn j = Throw (x j) ->
(shouldRetry_of o (toError (x j)) j = Throw y \/
 (shouldRetry_of o (toError (x j)) j = Return true /\
  exists f, onRetry o = Some f /\ f (toError (x j)) (j + 1)%nat = Throw y)) ->
fst (retryAsync fn o) = Throw y /\
calls (snd (retryAsync fn o)) = seq 0 (S j) /\
length (sleeps (snd (retryAsync fn o))) = j.
Proof.
intros Hj Hpre Hfail Hcb. unfold retryAsync.
replace (S (retries o)) with (j + S (retries o - j))%nat by lia.
rewrite (RetryFacts.retryLoop_prefix fn o x j)
  by (intros i Hi; apply Hpre; lia).
cbn [fst snd plus]. rewrite RetryFacts.calls_app, RetryFacts.sleeps_app.
rewrite RetryFacts.calls_attemptsTrace, RetryFacts.sleeps_attemptsTrace.
rewrite length_app, length_map, length_seq.
assert (E : Nat.eqb j (retries o) = false) by (apply Nat.eqb_neq; lia).
assert (Hlast : exists tr,
          retryLoop fn o (S (retries o - j)) j
            (Nat.iter j (nextDelay o) (delay_of o)) VUndefined = (Throw y, tr) /\
          calls tr = [j] /\ sleeps tr = []).
{ cbn [retryLoop]. rewrite Hfail, E.
  destruct Hcb as [Hs|(Hs & f & Hf & Hy)]; rewrite Hs.
  - eexists. repeat split.
  - rewrite Hf, Hy. eexists. repeat split. }
destruct Hlast as (tr & Hrun & Hc & Hsl). rewrite Hrun. cbn [fst snd].
rewrite Hc, Hsl. cbn [length]. repeat split; [|lia].
change [j] with (seq (0 + j) 1). rewrite <- seq_app. f_equal; lia.
Qed.

End Shape.

(** A predicate that throws on the first failure. *)
Lemma retry_callback_failure_replaces_task_failure_witness :
fst (retryAsync alwaysDown
       {| retries := 1; delay := None; backoffMultiplier := None;
          maxDelay := None;
          shouldRetry := Some (fun _ _ => Throw (VString "predicate broke"));
          onRetry := None |})
= Throw (VString "predicate broke").
Proof.
destruct (retry_callback_failure_replaces_task_failure alwaysDown
            {| retries := 1; delay := None; backoffMultiplier := None;
               maxDelay := None;
               shouldRetry := Some (fun _ _ => Throw (VString "predicate broke"));
               onRetry := None |}
            (fun _ => VError (newError "down")) 0 (VString "predicate broke"))
  as [H _].
- cbn; lia.
- intros i Hi. lia.
- reflexivity.
- left. reflexivity.
- exact H.
Defined.






Section Shorthand.
Context {T : Type}.

Lemma constant_delay (d : Q) (i : nat) :
(d <= 30000 # 1)%Q ->
(Nat.iter i (fun c => Qmin (c * (1 # 1)) (30000 # 1)) d == d)%Q.
Proof.
intros Hd. induction i as [|i IH]; [reflexivity|].
cbn [Nat.iter nat_rect].
change (nat_rect _ d (fun _ c => Qmin (c * (1 # 1)) (30000 # 1)) i)
  with (Nat.iter i (fun c => Qmin (c * (1 # 1)) (30000 # 1)) d).
rewrite IH, Qmult_1_r. apply Q.min_l. exact Hd.
Qed.

(** X10. [retry(fn, retries, delay)] with [delay <= 30000]: for a task
    failing on its first [k <= retries] invocations and then
    succeeding, the call returns the success after [k + 1] invocations
    and [k] sleeps, each of exactly [delay] ms (constant backoff; 1000
    ms when [delay] is omitted). *)
Theorem retry_shorthand_constant_delay
  (fn : nat -> Completion T) (retries k : nat) (delay : option Q)
  (x : nat -> Value) (v : T) :
(forall i, (i < k)%nat -> fn i = Throw (x i)) ->
fn k = Return v ->
(k <= retries)%nat ->
(default (1000 # 1) delay <= 30000 # 1)%Q ->
fst (retry fn retries delay) = Return v /\
calls (snd (retry fn retries delay)) = seq 0 (S k) /\
length (sleeps (snd (retry fn retries delay))) = k /\
Forall (fun s => s == default (1000 # 1) delay)%Q
       (sleeps (snd (retry fn retries delay))).
Proof.
intros Hfail Hok Hk Hd. unfold retry, retryAsync.
set (o := {| Retry.retries := retries;
             Retry.delay := Some (default (1000 # 1)%Q delay);
             backoffMultiplier := None; maxDelay := None;
             shouldRetry := None; onRetry := None |}).
cbn [Retry.retries o].
replace (S retries) with (k + S (retries - k))%nat by lia.
rewrite (RetryFacts.retryLoop_prefix fn o x k).
- rewrite (RetryFacts.retryLoop_success fn o _ _ _ _ v) by exact Hok.
  cbn [fst snd]. rewrite RetryFacts.calls_app, RetryFacts.sleeps_app.
  rewrite RetryFacts.calls_attemptsTrace, RetryFacts.sleeps_attemptsTrace.
  cbn [calls sleeps omap list_omap]. rewrite !app_nil_r.
  split; [reflexivity|]. split.
  { change [(0 + k)%nat] with (seq (0 + k) 1). rewrite <- seq_app.
    f_equal; lia. }
  split; [rewrite length_map, length_seq; reflexivity|].
  apply List.Forall_forall. intros s Hs. apply in_map_iff in Hs.
  destruct Hs as (i & <- & _). apply constant_delay. exact Hd.
- intros i Hi. unfold retried. split; [apply Hfail; lia|].
  split; [cbn; lia|]. split; [reflexivity|exact I].
Qed.

End Shorthand.

(** The default policy after two failures: three invocations, sleeps of
    1000 and 1000. *)
Lemma retry_shorthand_constant_delay_witness :
fst (retry failTwice 3 None) = Return 7 /\
length (sleeps (snd (retry failTwice 3 None))) = 2%nat.
Proof.
destruct (retry_shorthand_constant_delay failTwice 3 2 None
            (fun i => VError (newError (if Nat.eqb i 0 then "e0" else "e1"))) 7)
  as (H1 & _ & H2 & _).
- intros [|[|i]] Hi; [reflexivity|reflexivity|lia].
- reflexivity.
- lia.
- cbn. discriminate.
- split; assumption.
Defined.


End RetryMoreFacts.

(** ** More on the circuit breaker *)

Module BreakerMoreFacts.
Import CircuitBreaker SchedulersMore.

Section Facts.
Context {T : Type}.
Variable o : CircuitBreakerOptions.

(** A success on a closed breaker clears the failure count. *)
Lemma execute_closed_success b (c : Call T) :
state b = CLOSED -> succeeds c ->
execute o b (at_ c) (task c) (settledAt c)
= ({| state := CLOSED; failureCount := 0; successCount := successCount b;
      lastFailureTime := lastFailureTime b |}, ran c).
Proof.
intros Hs (v & Hv). unfold execute, executeBegin.
rewrite CircuitBreakerFacts.updateState_not_open by (rewrite Hs; discriminate).
unfold isOpen, ran. rewrite Hs, Hv. unfold executeSettle, onSuccess.
rewrite Hs. reflexivity.
Qed.

(** X11. A success between two runs of qualifying failures, each
    shorter than [failureThreshold], keeps a new breaker CLOSED: the
    success clears the count, so only failures since the last success
    count towards tripping, and every task is run. *)
Theorem breaker_success_resets_streak
  (failing1 failing2 : list (Call T)) (ok : Call T) :
(forall c, In c (failing1 ++ failing2) -> qualifies o c) ->
succeeds ok ->
Z.of_nat (length failing1) < failureThreshold o ->
Z.of_nat (length failing2) < failureThreshold o ->
executeAll o new (failing1 ++ ok :: failing2)
= ({| state := CLOSED; failureCount := Z.of_nat (length failing2);
      successCount := 0; lastFailureTime := 0 |},
   map ran (failing1 ++ ok :: failing2)).
Proof.
intros Hq Hok H1 H2. rewrite CircuitBreakerFacts.executeAll_app.
rewrite (CircuitBreakerFacts.executeAll_closed_failures o failing1 new);
  [|reflexivity|intros c Hc; apply Hq, in_or_app; left; exact Hc
   |cbn [failureCount new]; lia].
cbn [fst snd executeAll].
rewrite execute_closed_success by (auto; reflexivity).
cbn [successCount lastFailureTime new].
rewrite (CircuitBreakerFacts.executeAll_closed_failures o failing2);
  [|reflexivity|intros c Hc; apply Hq, in_or_app; right; exact Hc
   |cbn [failureCount]; lia].
cbn [failureCount successCount lastFailureTime].
rewrite map_app. reflexivity.
Qed.

(** X12. While a breaker is OPEN and calls begin only inside the reset
    window, nothing changes it: every call is rejected with the 503
    error carrying the trip time, and the settlement of a task that was
    started before the trip, success or failure, is passed to its
    caller without touching the state. *)
Theorem breaker_open_is_inert (b : Breaker) (evs : list (BreakerEv T)) :
state b = OPEN ->
(forall ev, In ev evs -> withinWindow o (lastFailureTime b) ev) ->
breakerRun o b evs = (b, map (openAnswer o (lastFailureTime b)) evs).
Proof.
intros Hs. induction evs as [|ev evs IH]; intros Hw; [reflexivity|].
cbn [breakerRun map].
assert (Hstep : breakerStep o b ev = (b, openAnswer o (lastFailureTime b) ev)).
{ specialize (Hw ev (or_introl eq_refl)).
  destruct ev as [now|[v|x] now]; cbn [breakerStep openAnswer withinWindow] in *.
  - unfold executeBegin.
    rewrite CircuitBreakerFacts.updateState_open_early by assumption.
    unfold isOpen. rewrite Hs. reflexivity.
  - unfold executeSettle, onSuccess. rewrite Hs. reflexivity.
  - unfold executeSettle, onFailure. rewrite Hs.
    destruct (shouldTrip_of o x) as [[|]|y]; reflexivity. }
rewrite Hstep, IH by (intros ev' H'; apply Hw; right; exact H').
reflexivity.
Qed.

(** X26. Polling [getState()] is transparent: with a clock that does
    not run backwards, a call made after a [getState()] is answered, and
    leaves the breaker, exactly as if the poll had not happened. *)
Theorem getState_is_transparent
  (b : Breaker) (now now' : Z) (r : Completion T) (t1 : Z) :
now <= now' ->
execute o (fst (getState o b now)) now' r t1 = execute o b now' r t1.
Proof.
intros Hle. unfold getState, execute, executeBegin. cbn [fst].
assert (H : updateState o (updateState o b now) now' = updateState o b now').
{ unfold updateState at 2. unfold isOpen.
  destruct (state b) eqn:Hs; cbn [andb]; try reflexivity.
  destruct (now - lastFailureTime b >=? resetTimeout o) eqn:E; [|reflexivity].
  rewrite CircuitBreakerFacts.updateState_not_open
    by (cbn [state]; discriminate).
  rewrite Z.geb_leb in E. apply Z.leb_le in E.
  rewrite CircuitBreakerFacts.updateState_open_elapsed by (auto; lia).
  reflexivity. }
rewrite H. reflexivity.
Qed.

(** One call keeps two such breakers alike and is answered alike. *)
Lemma execute_sameBehaviour b b' (c : Call T) :
sameBehaviour b b' ->
sameBehaviour (fst (execute o b (at_ c) (task c) (settledAt c)))
              (fst (execute o b' (at_ c) (task c) (settledAt c))) /\
snd (execute o b (at_ c) (task c) (settledAt c))
= snd (execute o b' (at_ c) (task c) (settledAt c)).
Proof.
destruct b as [s fc sc lt], b' as [s' fc' sc' lt'].
unfold sameBehaviour. cbn [state failureCount successCount lastFailureTime].
intros (Hs & Hf & Hlt & Hsc). subst s' fc'.
unfold execute, executeBegin, updateState, isOpen, executeSettle,
  onSuccess, onFailure, trip, reset, openError.
destruct s; cbn [state failureCount successCount lastFailureTime andb].
- destruct (task c) as [v|x]; cbn [fst snd state failureCount]; [easy|].
  destruct (shouldTrip_of o x) as [[|]|y];
    cbn [fst snd state failureCount successCount lastFailureTime];
    [|easy|easy].
  destruct (fc + 1 >=? failureThreshold o);
    cbn [fst snd state failureCount successCount lastFailureTime];
    repeat split; try easy.
- rewrite <- (Hlt ltac:(discriminate)).
  destruct (settledAt c); destruct (at_ c - lt >=? resetTimeout o);
    cbn [fst snd state failureCount successCount lastFailureTime];
    try (repeat split; easy);
    destruct (task c) as [v|x];
    cbn [fst snd state failureCount successCount lastFailureTime];
    try (destruct (0 + 1 >=? successThreshold_of o));
    try (destruct (shouldTrip_of o x) as [[|]|y]);
    cbn [fst snd state failureCount successCount lastFailureTime];
    repeat split; easy.
- rewrite <- (Hlt ltac:(discriminate)), <- (Hsc eq_refl).
  destruct (task c) as [v|x];
    cbn [fst snd state failureCount successCount lastFailureTime];
    try (destruct (sc + 1 >=? successThreshold_of o));
    try (destruct (shouldTrip_of o x) as [[|]|y]);
    cbn [fst snd state failureCount successCount lastFailureTime];
    repeat split; easy.
Qed.

Lemma executeAll_sameBehaviour (cs : list (Call T)) : forall b b',
sameBehaviour b b' ->
snd (executeAll o b cs) = snd (executeAll o b' cs).
Proof.
induction cs as [|c cs IH]; intros b b' H; [reflexivity|].
cbn [executeAll]. destruct (execute_sameBehaviour b b' c H) as [HR Hout].
destruct (execute o b (at_ c) (task c) (settledAt c)) as [b1 out].
destruct (execute o b' (at_ c) (task c) (settledAt c)) as [b1' out'].
cbn [fst snd] in *. specialize (IH b1 b1' HR).
destruct (executeAll o b1 cs), (executeAll o b1' cs).
cbn [snd] in *. congruence.
Qed.

(** X13. A breaker that has been reset (closed again after a recovery)
    answers every future sequence of calls exactly as a new breaker
    does: nothing of its earlier trips is remembered. *)
Theorem breaker_reset_behaves_as_new (b : Breaker) (cs : list (Call T)) :
snd (executeAll o (reset b) cs) = snd (executeAll o new cs).
Proof.
apply executeAll_sameBehaviour. unfold sameBehaviour, reset, new.
cbn [state failureCount successCount lastFailureTime].
repeat split; easy.
Qed.

End Facts.

(** One failure, a success, one failure: [twoStrikes] stays closed. *)
Lemma breaker_success_resets_streak_witness :
fst (executeAll twoStrikes new
       [mkCall 0 down 1; mkCall 2 (Return 5) 3; mkCall 4 down 5])
= {| state := CLOSED; failureCount := 1; successCount := 0;
     lastFailureTime := 0 |}.
Proof.
refine (f_equal fst
          (breaker_success_resets_streak twoStrikes
             [mkCall 0 down 1] [mkCall 4 down 5] (mkCall 2 (Return 5) 3)
             _ _ _ _)).
- intros c Hc. apply CircuitBreakerFacts.qualifies_default; [reflexivity|].
  destruct Hc as [<-|[<-|[]]]; eexists; reflexivity.
- eexists; reflexivity.
- cbn; lia.
- cbn; lia.
Defined.

(** A poll at 1500 and a call at 1600 on the breaker tripped at 3. *)
Lemma getState_is_transparent_witness :
execute twoStrikes (fst (getState twoStrikes trippedAt3 1500)) 1600 (Return 1) 1601
= execute twoStrikes trippedAt3 1600 (Return 1) 1601.
Proof.
apply (getState_is_transparent twoStrikes trippedAt3 1500 1600 (Return 1) 1601).
lia.
Defined.

(** A success and a failure arriving late, and a call at 500, on the
    breaker tripped at 3. *)
Lemma breaker_open_is_inert_witness :
fst (breakerRun twoStrikes trippedAt3
       [TaskSettles (Return 1) 10; CallBegins 500; TaskSettles down 600])
= trippedAt3.
Proof.
rewrite (breaker_open_is_inert twoStrikes trippedAt3
           [TaskSettles (Return 1) 10; CallBegins 500; TaskSettles down 600]).
- reflexivity.
- reflexivity.
- intros ev [<-|[<-|[<-|[]]]]; cbn; try exact I; lia.
Defined.

End BreakerMoreFacts.

(** ** More on the schedulers *)

Module SchedulersMoreFacts.
Import SchedulersMore.

Section SemaphoreSafety.
Import Semaphore.
Variable limit : Z.



End SemaphoreSafety.




Section BulkheadBounds.
Import Bulkhead.
Variable o : BulkheadOptions.

Lemma queue_bound_step b ev b' ob q :
maxQueue o = Some q ->
Z.of_nat (length (queue b)) <= Z.max 0 q ->
step o b ev = Some (b', ob) ->
Z.of_nat (length (queue b')) <= Z.max 0 q.
Proof.
intros Hq Hb Hstep. destruct ev as [task|task ok]; cbn [step] in Hstep.
- unfold submit, queueFull in Hstep. rewrite Hq in Hstep.
  destruct (activeCount b <? concurrency o);
    [inversion Hstep; subst; exact Hb|].
  destruct (Z.of_nat (length (queue b)) >=? q) eqn:E;
    inversion Hstep; subst; clear Hstep; [exact Hb|].
  cbn [queue]. rewrite length_app. cbn [length].
  rewrite Z.geb_leb in E. apply Z.leb_gt in E. lia.
- unfold settle in Hstep.
  destruct (existsb (Nat.eqb task) (inflight b)); [|discriminate].
  unfold processQueue in Hstep. cbn [activeCount queue inflight] in Hstep.
  destruct (activeCount b - 1 >=? concurrency o);
    [inversion Hstep; subst; exact Hb|].
  destruct (queue b) as [|nx rest];
    inversion Hstep; subst; clear Hstep; cbn [queue length] in *; lia.
Qed.

Lemma queue_bound_run evs q : forall b b' obs,
maxQueue o = Some q ->
Z.of_nat (length (queue b)) <= Z.max 0 q ->
run o b evs = Some (b', obs) ->
Z.of_nat (length (queue b')) <= Z.max 0 q.
Proof.
induction evs as [|ev evs IH]; intros b b' obs Hq Hb Hrun; cbn [run] in Hrun.
- inversion Hrun; subst. exact Hb.
- destruct (step o b ev) as [[b1 ob]|] eqn:Hstep; [|discriminate].
  destruct (run o b1 evs) as [[b2 obs']|] eqn:Hr; [|discriminate].
  inversion Hrun; subst. eapply IH; [exact Hq| |exact Hr].
  eapply queue_bound_step; eassumption.
Qed.

(** X16. In every state a bulkhead reaches: at most [concurrency] tasks
    are in flight, at most [maxQueue] submissions are queued, and
    nobody is queued while a slot is free. *)
Theorem bulkhead_bounds (evs : list Ev) (b : Bulk) (obs : list Obs) :
run o init evs = Some (b, obs) ->
Z.of_nat (length (inflight b)) <= Z.max 0 (concurrency o) /\
(forall q, maxQueue o = Some q ->
   Z.of_nat (length (queue b)) <= Z.max 0 q) /\
(queue b <> [] -> concurrency o <= Z.of_nat (length (inflight b))).
Proof.
intros Hrun.
destruct (BulkheadFacts.bulkhead_run_invariant o evs init b obs
            (BulkheadFacts.invariant_init o) Hrun) as (H1 & H2 & H3).
split; [lia|]. split.
- intros q Hq. eapply queue_bound_run; [exact Hq| |exact Hrun]. cbn. lia.
- intros Hne. specialize (H3 Hne). lia.
Qed.

Lemma starved_run evs : forall b b' obs,
concurrency o <= 0 ->
activeCount b = 0 -> inflight b = [] ->
run o b evs = Some (b', obs) ->
inflight b' = [] /\ Forall nothingInvoked obs.
Proof.
induction evs as [|ev evs IH]; intros b b' obs Hc Ha Hi Hrun; cbn [run] in Hrun.
- inversion Hrun; subst. split; [exact Hi|constructor].
- destruct (step o b ev) as [[b1 ob]|] eqn:Hstep; [|discriminate].
  destruct (run o b1 evs) as [[b2 obs']|] eqn:Hr; [|discriminate].
  inversion Hrun; subst.
  assert (H1 : activeCount b1 = 0 /\ inflight b1 = [] /\ nothingInvoked ob).
  { destruct ev as [task|task ok]; cbn [step] in Hstep.
    - unfold submit in Hstep.
      assert (E : (activeCount b <? concurrency o) = false)
        by (apply Z.ltb_ge; lia).
      rewrite E in Hstep. destruct (queueFull o b);
        inversion Hstep; subst; cbn; auto.
    - unfold settle in Hstep. rewrite Hi in Hstep. discriminate. }
  destruct H1 as (Ha1 & Hi1 & Hob).
  destruct (IH b1 b' obs' Hc Ha1 Hi1 Hr) as [Hfin Hall].
  split; [exact Hfin|constructor; assumption].
Qed.

(** X17. A bulkhead with [concurrency <= 0] never runs anything: every
    submission is queued (or, the queue being full, rejected with the
    429 error), no task is ever invoked, and so no queued promise ever
    settles. *)
Theorem bulkhead_without_capacity_starves
  (evs : list Ev) (b : Bulk) (obs : list Obs) :
concurrency o <= 0 ->
run o init evs = Some (b, obs) ->
inflight b = [] /\ Forall nothingInvoked obs.
Proof.
intros Hc Hrun. eapply starved_run; [exact Hc| | |exact Hrun]; reflexivity.
Qed.

End BulkheadBounds.

(** The run of the witness of the contract: one in flight, none queued. *)
Lemma bulkhead_bounds_witness :
Z.of_nat (length (Bulkhead.inflight
                    {| Bulkhead.activeCount := 1; Bulkhead.queue := [];
                       Bulkhead.inflight := [1%nat] |})) <= 1.
Proof.
destruct (bulkhead_bounds Bulkhead.oneAndOne
            [Bulkhead.Submit 0; Bulkhead.Submit 1; Bulkhead.Submit 2;
             Bulkhead.Settle 0 false]%nat
            {| Bulkhead.activeCount := 1; Bulkhead.queue := [];
               Bulkhead.inflight := [1%nat] |}
            [Bulkhead.Submitted 0 Bulkhead.Started;
             Bulkhead.Submitted 1 Bulkhead.Queued;
             Bulkhead.Submitted 2 (Bulkhead.Rejected Bulkhead.saturation);
             Bulkhead.Released 0 (Some 1)]%nat eq_refl) as [H _].
exact H.
Defined.

(** [{ concurrency: 0 }]: two submissions, both left in the queue. *)
Lemma bulkhead_without_capacity_starves_witness :
Forall nothingInvoked
  [Bulkhead.Submitted 0%nat Bulkhead.Queued;
   Bulkhead.Submitted 1%nat Bulkhead.Queued].
Proof.
destruct (bulkhead_without_capacity_starves
            {| Bulkhead.concurrency := 0; Bulkhead.maxQueue := None |}
            [Bulkhead.Submit 0; Bulkhead.Submit 1]%nat
            {| Bulkhead.activeCount := 0; Bulkhead.queue := [0; 1]%nat;
               Bulkhead.inflight := [] |}
            [Bulkhead.Submitted 0%nat Bulkhead.Queued;
             Bulkhead.Submitted 1%nat Bulkhead.Queued]) as [_ H].
- cbn. lia.
- reflexivity.
- exact H.
Defined.

End SchedulersMoreFacts.

(** ** More on [parallelLimit] *)

Module ParallelLimitMoreFacts.
Import ParallelLimit Combinators SchedulersMore.

Lemma length_awaited_le (ws : list Worker) :
(length (omap (fun w => match w with Awaiting i => Some i | _ => None end) ws)
 <= length ws)%nat.
Proof.
induction ws as [|w ws IH]; [reflexivity|].
unfold omap in *. simpl. destruct w; simpl; lia.
Qed.

Section AnyTasks.
Context {T : Type}.
Variable tasks : list (Completion T).
Variable limit : Z.

Lemma spawn_iter_any j :
(j <= length tasks)%nat ->
Nat.iter j (spawn tasks)
  {| currentIndex := 0; results := replicate (length tasks) None;
     workers := []; invokedLog := []; rejected := None |}
= {| currentIndex := j; results := replicate (length tasks) None;
     workers := map Awaiting (seq 0 j); invokedLog := seq 0 j;
     rejected := None |}.
Proof.
induction j as [|j IH]; intros Hj; [reflexivity|].
cbn [Nat.iter nat_rect].
change (nat_rect _ ?x (fun _ => ?f) j) with (Nat.iter j f x).
rewrite IH by lia. unfold spawn, loopHead. cbn [currentIndex].
assert (E : (j <? length tasks)%nat = true) by (apply Nat.ltb_lt; lia).
rewrite E. cbn [currentIndex results workers invokedLog rejected].
rewrite seq_S, map_app. reflexivity.
Qed.

Lemma start_any :
start tasks limit
= {| currentIndex := workerCount tasks limit;
     results := replicate (length tasks) None;
     workers := map Awaiting (seq 0 (workerCount tasks limit));
     invokedLog := seq 0 (workerCount tasks limit);
     rejected := None |}.
Proof. unfold start. apply spawn_iter_any. unfold workerCount. lia. Qed.

(** One settlement keeps the number of workers and the cursor's log. *)
Lemma resume_any st w st' :
resume tasks st w = Some st' ->
invokedLog st = seq 0 (currentIndex st) ->
(currentIndex st <= length tasks)%nat ->
length (workers st') = length (workers st) /\
invokedLog st' = seq 0 (currentIndex st') /\
(currentIndex st' <= length tasks)%nat.
Proof.
intros Hres Hlog Hci. unfold resume in Hres.
destruct (workers st !! w) as [[i| |x]|]; try discriminate.
destruct (tasks !! i) as [[v|x]|]; try discriminate.
- unfold loopHead in Hres.
  cbn [currentIndex results workers invokedLog rejected] in Hres.
  destruct (currentIndex st <? length tasks)%nat eqn:E;
    inversion Hres; subst; clear Hres;
    cbn [currentIndex workers invokedLog]; rewrite length_insert.
  + apply Nat.ltb_lt in E. rewrite Hlog, seq_S. repeat split; lia.
  + repeat split; assumption.
- inversion Hres; subst; clear Hres.
  cbn [currentIndex workers invokedLog]. rewrite length_insert.
  repeat split; assumption.
Qed.

Lemma run_any sched : forall st st',
run tasks st sched = Some st' ->
invokedLog st = seq 0 (currentIndex st) ->
(currentIndex st <= length tasks)%nat ->
length (workers st') = length (workers st) /\
invokedLog st' = seq 0 (currentIndex st') /\
(currentIndex st' <= length tasks)%nat.
Proof.
induction sched as [|w sched IH]; intros st st' Hrun Hlog Hci; cbn [run] in Hrun.
- inversion Hrun; subst. repeat split; assumption.
- destruct (resume tasks st w) as [st1|] eqn:Hres; [|discriminate].
  destruct (resume_any st w st1 Hres Hlog Hci) as (Hl & Hlog1 & Hci1).
  destruct (IH st1 st' Hrun Hlog1 Hci1) as (Hl' & Hlog' & Hci').
  repeat split; [congruence|assumption|assumption].
Qed.

Lemma run_snoc_any sched : forall (st : State T) w,
run tasks st (sched ++ [w])
= match run tasks st sched with
  | Some st' => resume tasks st' w
  | None => None
  end.
Proof.
induction sched as [|w0 sched IH]; intros st w; cbn [run app].
- destruct (resume tasks st w); reflexivity.
- destruct (resume tasks st w0) as [st1|]; [apply IH|reflexivity].
Qed.

(** X18. Whatever the tasks do (succeed or fail) and in whatever order
    they settle, [parallelLimit] never has more than [limit] tasks in
    flight, invokes the tasks in index order, and invokes no task
    twice. *)
Theorem parallelLimit_bounded_concurrency (sched : list nat) (st : State T) :
run tasks (start tasks limit) sched = Some st ->
Z.of_nat (length (awaited st)) <= Z.max 0 limit /\
invokedLog st = seq 0 (currentIndex st) /\
(currentIndex st <= length tasks)%nat /\
NoDup (invokedLog st).
Proof.
intros Hrun.
destruct (run_any sched _ _ Hrun) as (Hl & Hlog & Hci).
- rewrite start_any. reflexivity.
- rewrite start_any. cbn [currentIndex]. unfold workerCount. lia.
- rewrite start_any in Hl. cbn [workers] in Hl.
  rewrite length_map, length_seq in Hl.
  pose proof (length_awaited_le (workers st)) as Hle.
  fold (awaited st) in Hle. unfold workerCount in Hl.
  split; [lia|]. split; [exact Hlog|]. split; [exact Hci|].
  rewrite Hlog. apply NoDup_seq.
Qed.

(** X19. [parallelLimit(tasks, limit)] with [limit <= 0] spawns no
    worker: it resolves at once with an array of [tasks.length] empty
    slots, and no task is ever invoked. *)
Theorem parallelLimit_without_workers :
limit <= 0 ->
outcome (start tasks limit) = Some (Return (replicate (length tasks) None)) /\
invokedLog (start tasks limit) = [] /\
(forall w, resume tasks (start tasks limit) w = None).
Proof.
intros Hl. rewrite start_any.
assert (E : workerCount tasks limit = 0%nat) by (unfold workerCount; lia).
rewrite E. cbn. repeat split.
Qed.

End AnyTasks.

Section OneWorker.
Context {T : Type}.

(** With one worker, after the first [length vs] tasks have succeeded
    and another task remains, the worker is suspended on it. *)
Lemma one_worker_prefix (vs : list T) : forall rest,
rest <> [] ->
run (map Return vs ++ rest) (start (map Return vs ++ rest) 1)
    (repeat 0%nat (length vs))
= Some {| currentIndex := S (length vs);
          results := map Some vs ++ replicate (length rest) None;
          workers := [Awaiting (length vs)];
          invokedLog := seq 0 (S (length vs));
          rejected := None |}.
Proof.
induction vs as [|v vs IH] using rev_ind; intros rest Hne.
- cbn [map app length repeat run]. rewrite start_any.
  assert (E : workerCount rest 1 = 1%nat).
  { unfold workerCount. destruct rest; [contradiction|cbn [length]; lia]. }
  rewrite E. reflexivity.
- rewrite map_app, <- List.app_assoc. cbn [map app].
  rewrite length_app. cbn [length].
  replace (length vs + 1)%nat with (S (length vs)) by lia.
  cbn [repeat]. rewrite repeat_cons, run_snoc_any.
  specialize (IH (Return v :: rest) ltac:(discriminate)).
  set (tasks := map Return vs ++ Return v :: rest) in *.
  rewrite IH. unfold resume. cbn [workers]. cbn [lookup list_lookup].
  assert (Ht : tasks !! length vs = Some (Return v)).
  { unfold tasks. rewrite lookup_app_r by (rewrite length_map; lia).
    rewrite length_map, Nat.sub_diag. reflexivity. }
  rewrite Ht. unfold loopHead.
  cbn [currentIndex results workers invokedLog rejected].
  assert (Hlen : length tasks = (length vs + S (length rest))%nat).
  { unfold tasks. rewrite length_app, length_map. reflexivity. }
  assert (E : (S (length vs) <? length tasks)%nat = true).
  { apply Nat.ltb_lt. rewrite Hlen. destruct rest; [contradiction|cbn; lia]. }
  rewrite E. cbn [currentIndex results workers invokedLog rejected].
  cbn [insert list_insert]. f_equal. f_equal.
  + cbn [length replicate].
    replace (length vs) with (length (map Some vs) + 0)%nat at 1
      by (rewrite length_map; lia).
    rewrite insert_app_r. cbn. rewrite map_app, <- List.app_assoc. reflexivity.
  + rewrite (seq_S (S (length vs))). reflexivity.
Qed.

Lemma tasks_decompose (tasks : list (Completion T)) :
(exists vs, tasks = map Return vs) \/
(exists vs x rest, tasks = map Return vs ++ Throw x :: rest).
Proof.
induction tasks as [|[v|x] tasks IH].
- left. exists []. reflexivity.
- destruct IH as [(vs & ->)|(vs & y & rest & ->)].
  + left. exists (v :: vs). reflexivity.
  + right. exists (v :: vs), y, rest. reflexivity.
- right. exists [], x, tasks. reflexivity.
Qed.

Lemma sequence_success (vs : list T) :
sequence (map Return vs) = (Return vs, seq 0 (length vs)).
Proof.
unfold sequence. rewrite <- (app_nil_r (map Return vs)).
rewrite CombinatorsFacts.sequenceFrom_prefix. cbn. rewrite app_nil_r.
reflexivity.
Qed.

Lemma sequence_failure (vs : list T) x rest :
sequence (map Return vs ++ Throw x :: rest) = (Throw x, seq 0 (S (length vs))).
Proof.
unfold sequence. rewrite CombinatorsFacts.sequenceFrom_prefix.
cbn [sequenceFrom fst snd]. rewrite seq_S. reflexivity.
Qed.

(** X20. With [limit = 1], [parallelLimit] is [sequence]: its single
    worker invokes exactly the tasks [sequence] invokes, in the same
    order, and the promise settles as [sequence] does (with the values
    in the slots of the result array), after which nothing is in
    flight: the tasks behind a failing one are never run. *)
Theorem parallelLimit_one_is_sequence (tasks : list (Completion T)) :
exists st,
  run tasks (start tasks 1) (repeat 0%nat (length (snd (sequence tasks))))
  = Some st /\
  outcome st = Some (withHoles (fst (sequence tasks))) /\
  invokedLog st = snd (sequence tasks) /\
  awaited st = [].
Proof.
destruct (tasks_decompose tasks) as [(vs & ->)|(vs & x & rest & ->)].
- rewrite sequence_success. cbn [fst snd withHoles]. rewrite length_seq.
  destruct vs as [|v vs] using rev_ind.
  + eexists. split; [reflexivity|]. cbn. repeat split.
  + clear IHvs. rewrite map_app. cbn [map].
    rewrite length_app. cbn [length].
    replace (length vs + 1)%nat with (S (length vs)) by lia.
    cbn [repeat]. rewrite repeat_cons, run_snoc_any.
    rewrite (one_worker_prefix vs [Return v]) by discriminate.
    unfold resume. cbn [workers]. cbn [lookup list_lookup].
    rewrite lookup_app_r by (rewrite length_map; lia).
    rewrite length_map, Nat.sub_diag. cbn [lookup list_lookup].
    unfold loopHead. cbn [currentIndex results workers invokedLog rejected].
    assert (E : (S (length vs) <? length (map Return vs ++ [Return v]))%nat = false).
    { apply Nat.ltb_ge. rewrite length_app, length_map. cbn. lia. }
    rewrite E. eexists. split; [reflexivity|].
    unfold outcome, awaited.
    cbn [currentIndex results workers invokedLog rejected insert list_insert].
    cbn [forallb isFinished andb omap list_omap].
    repeat split.
    do 2 f_equal. cbn [length replicate].
    replace (length vs) with (length (map Some vs) + 0)%nat at 1
      by (rewrite length_map; lia).
    rewrite insert_app_r. cbn. rewrite map_app. reflexivity.
- rewrite sequence_failure. cbn [fst snd withHoles]. rewrite length_seq.
  cbn [repeat]. rewrite repeat_cons, run_snoc_any.
  rewrite (one_worker_prefix vs (Throw x :: rest)) by discriminate.
  unfold resume. cbn [workers]. cbn [lookup list_lookup].
  rewrite lookup_app_r by (rewrite length_map; lia).
  rewrite length_map, Nat.sub_diag. cbn [lookup list_lookup].
  eexists. split; [reflexivity|].
  unfold outcome, awaited.
  cbn [currentIndex results workers invokedLog rejected insert list_insert].
  repeat split.
Qed.

End OneWorker.

(** Five tasks, the third failing, two workers, any schedule of two
    steps: at most two tasks are in flight. *)
Lemma parallelLimit_bounded_concurrency_witness :
Z.of_nat (length (awaited
  {| currentIndex := 4;
     results := [Some 1; Some 2; None; None; None];
     workers := [Awaiting 2%nat; Awaiting 3%nat];
     invokedLog := [0; 1; 2; 3]%nat; rejected := None |})) <= 2.
Proof.
destruct (parallelLimit_bounded_concurrency
            [Return 1; Return 2; Throw VUndefined; Return 4; Return 5] 2
            [0; 1]%nat
            {| currentIndex := 4;
               results := [Some 1; Some 2; None; None; None];
               workers := [Awaiting 2%nat; Awaiting 3%nat];
               invokedLog := [0; 1; 2; 3]%nat; rejected := None |} eq_refl)
  as [H _].
exact H.
Defined.

Lemma parallelLimit_without_workers_witness :
outcome (start [Return 1; Return 2] 0) = Some (Return [None; None]).
Proof.
destruct (parallelLimit_without_workers [Return 1; Return 2] 0) as [H _].
- lia.
- exact H.
Defined.

End ParallelLimitMoreFacts.

(** ** [once] and [debounce] *)

Module AsyncMoreFacts.
Import AsyncMore.

Section OnceFacts.
Context {T : Type}.
Variable fn : nat -> Completion T.

(** Failed invocations leave the wrapper as it was, one invocation
    further. *)
Lemma onceCalls_failures (x : nat -> Value) (k : nat) : forall j r,
(forall i, (j <= i < j + k)%nat -> fn i = Throw (x i)) ->
onceCalls fn {| executed := false; result := r; invocations := j |} k
= ({| executed := false; result := r; invocations := (j + k)%nat |},
   map (fun i => Throw (x i)) (seq j k)).
Proof.
induction k as [|k IH]; intros j r H.
- cbn. rewrite Nat.add_0_r. reflexivity.
- cbn [onceCalls seq map]. unfold onceCall, onceBegin.
  cbn [executed negb invocations result].
  rewrite (H j) by lia. cbn [onceSettle].
  rewrite IH by (intros i Hi; apply H; lia).
  replace (S j + k)%nat with (j + S k)%nat by lia. reflexivity.
Qed.

(** Once a value is cached, calls return it and invoke nothing. *)
Lemma onceCalls_cached (m : nat) : forall r j,
onceCalls fn {| executed := true; result := r; invocations := j |} m
= ({| executed := true; result := r; invocations := j |},
   repeat (Return r) m).
Proof.
induction m as [|m IH]; intros r j; [reflexivity|].
cbn [onceCalls repeat]. unfold onceCall, onceBegin. cbn [executed negb result].
rewrite IH. reflexivity.
Qed.

Lemma onceCalls_app (n m : nat) : forall st,
onceCalls fn st (n + m)
= (fst (onceCalls fn (fst (onceCalls fn st n)) m),
   snd (onceCalls fn st n) ++ snd (onceCalls fn (fst (onceCalls fn st n)) m)).
Proof.
induction n as [|n IH]; intros st; cbn [plus onceCalls].
- cbn [fst snd app]. destruct (onceCalls fn st m); reflexivity.
- destruct (onceCall fn st) as [st1 r]. rewrite IH.
  destruct (onceCalls fn st1 n) as [st2 rs]. cbn [fst snd app].
  destruct (onceCalls fn st2 m); reflexivity.
Qed.

(** X21. [once(fn)] called sequentially, when [fn] fails on its first
    [k] invocations and then succeeds with [v]: the first [k] calls
    reject with those failures (a failure is not cached and the next
    call invokes [fn] again), call [k+1] returns [v], every later call
    returns [v] without invoking [fn], and [fn] has been invoked
    exactly [k+1] times. *)
Theorem once_caches_first_success (x : nat -> Value) (k m : nat) (v : T) :
(forall i, (i < k)%nat -> fn i = Throw (x i)) ->
fn k = Return v ->
onceCalls fn onceInit (k + S m)
= ({| executed := true; result := Some v; invocations := S k |},
   map (fun i => Throw (x i)) (seq 0 k)
     ++ Return (Some v) :: repeat (Return (Some v)) m).
Proof.
intros Hfail Hok. rewrite onceCalls_app. unfold onceInit.
rewrite (onceCalls_failures x k 0 None) by (intros i Hi; apply Hfail; lia).
cbn [fst snd plus onceCalls]. unfold onceCall, onceBegin.
cbn [executed negb invocations result]. rewrite Hok. cbn [onceSettle].
rewrite onceCalls_cached. reflexivity.
Qed.

(** Calls that begin before any invocation has settled all invoke. *)
Lemma onceRun_begins (n : nat) : forall r j,
onceRun fn {| executed := false; result := r; invocations := j |}
  (repeat OnceBegin n)
= ({| executed := false; result := r; invocations := (j + n)%nat |},
   repeat None n).
Proof.
induction n as [|n IH]; intros r j.
- cbn. rewrite Nat.add_0_r. reflexivity.
- cbn [repeat onceRun onceStep]. unfold onceBegin. cbn [executed negb].
  cbn [result invocations]. rewrite IH.
  replace (S j + n)%nat with (j + S n)%nat by lia. reflexivity.
Qed.

Lemma onceRun_app (evs1 evs2 : list OnceEv) : forall st,
onceRun fn st (evs1 ++ evs2)
= (fst (onceRun fn (fst (onceRun fn st evs1)) evs2),
   snd (onceRun fn st evs1) ++ snd (onceRun fn (fst (onceRun fn st evs1)) evs2)).
Proof.
induction evs1 as [|ev evs1 IH]; intros st; cbn [app onceRun].
- cbn [fst snd app]. destruct (onceRun fn st evs2); reflexivity.
- destruct (onceStep fn st ev) as [st1 ob]. rewrite IH.
  destruct (onceRun fn st1 evs1) as [st2 obs]. cbn [fst snd app].
  destruct (onceRun fn st2 evs2); reflexivity.
Qed.

(** Successful settlements each overwrite the cache. *)
Lemma onceRun_settles (v : nat -> T) (order : list nat) : forall st,
(forall k, In k order -> fn k = Return (v k)) ->
order <> [] ->
onceRun fn st (map OnceSettle order)
= ({| executed := true; result := Some (v (List.last order 0%nat));
      invocations := invocations st |},
   map (fun k => Some (Return (Some (v k)))) order).
Proof.
induction order as [|k order IH]; intros st Hv Hne; [contradiction|].
cbn [map onceRun onceStep]. rewrite (Hv k) by (left; reflexivity).
cbn [onceSettle]. destruct order as [|k' order'].
- reflexivity.
- rewrite IH; [|intros j Hj; apply Hv; right; exact Hj|discriminate].
  reflexivity.
Qed.

(** X22. [once] does not guard overlapping calls: when [n] calls begin
    before any invocation has settled, [fn] is invoked [n] times; each
    caller receives the value of its own invocation, so callers may see
    different values, and the value cached for later calls is the one
    that settled last. *)
Theorem once_overlapping_calls_all_invoke
  (n : nat) (v : nat -> T) (order : list nat) :
(forall k, In k order -> fn k = Return (v k)) ->
order <> [] ->
onceRun fn onceInit (repeat OnceBegin n ++ map OnceSettle order)
= ({| executed := true; result := Some (v (List.last order 0%nat));
      invocations := n |},
   repeat None n ++ map (fun k => Some (Return (Some (v k)))) order).
Proof.
intros Hv Hne. rewrite onceRun_app. unfold onceInit.
rewrite onceRun_begins. cbn [fst snd plus].
rewrite (onceRun_settles v order) by assumption. reflexivity.
Qed.

End OnceFacts.

Lemma once_caches_first_success_witness :
snd (onceCalls Retry.failTwice onceInit 4)
= [Throw (VError (newError "e0")); Throw (VError (newError "e1"));
   Return (Some 7); Return (Some 7)].
Proof.
refine (f_equal snd
          (once_caches_first_success Retry.failTwice
             (fun i => VError (newError (if Nat.eqb i 0 then "e0" else "e1")))
             2 1 7 _ _)).
- intros [|[|i]] Hi; [reflexivity|reflexivity|lia].
- reflexivity.
Defined.

(** Two overlapping first calls, the second invocation settling first. *)
Lemma once_overlapping_calls_all_invoke_witness :
fst (onceRun (fun k => Return (Z.of_nat k)) onceInit
       [OnceBegin; OnceBegin; OnceSettle 1; OnceSettle 0])
= {| executed := true; result := Some 0; invocations := 2 |}.
Proof.
refine (f_equal fst
          (once_overlapping_calls_all_invoke (fun k => Return (Z.of_nat k))
             2 Z.of_nat [1; 0]%nat _ _)).
- intros k _. reflexivity.
- discriminate.
Defined.

Section DebounceFacts.
Context {A R : Type}.
Variable fn : nat -> A -> Completion R.

Lemma last_after_cons (l : list A) : forall x d,
List.last (x :: l) d = List.last l x.
Proof.
induction l as [|y l IH]; intros x d; [reflexivity|].
change (List.last (x :: y :: l) d) with (List.last (y :: l) d).
rewrite !IH. reflexivity.
Qed.

(** During a burst one promise is pending and one timer is armed. *)
Lemma debCall_in_burst (d : Deb A R) p t a args :
pendingPromise d = Some p -> timeoutId d = Some t -> armed d = [(t, a)] ->
debCall d args
= ({| timeoutId := Some (nextTimer d); pendingPromise := Some p;
      armed := [(nextTimer d, args)]; running := running d;
      nextTimer := Pos.succ (nextTimer d); nextPromise := nextPromise d;
      started := started d; delivered := delivered d |}, p).
Proof.
intros Hp Ht Ha. unfold debCall. rewrite Hp, Ht, Ha.
unfold clearTimer. cbn [List.filter fst]. rewrite Pos.eqb_refl. reflexivity.
Qed.

Lemma debCalls_in_burst (argss : list A) : forall (d : Deb A R) p t a,
pendingPromise d = Some p -> timeoutId d = Some t -> armed d = [(t, a)] ->
exists t' nt,
  debCalls d argss
  = ({| timeoutId := Some t'; pendingPromise := Some p;
        armed := [(t', List.last argss a)]; running := running d;
        nextTimer := nt; nextPromise := nextPromise d;
        started := started d; delivered := delivered d |},
     repeat p (length argss)).
Proof.
induction argss as [|args argss IH]; intros d p t a Hp Ht Ha.
- exists t, (nextTimer d). cbn. destruct d; cbn in *; subst. reflexivity.
- cbn [debCalls]. rewrite (debCall_in_burst d p t a args Hp Ht Ha).
  match goal with
  | |- context [debCalls ?d1 argss] =>
      destruct (IH d1 p (nextTimer d) args eq_refl eq_refl eq_refl)
        as (t' & nt & Heq)
  end.
  rewrite Heq. exists t', nt.
  cbn [running nextPromise started delivered length repeat].
  rewrite last_after_cons. reflexivity.
Qed.

(** X23. A burst of calls to a debounced function with no timer firing
    in between: every call gets the same promise; a single timer stays
    armed, carrying the arguments of the last call; when it fires, [fn]
    is invoked once, on those arguments, and its outcome settles the
    promise; after that nothing is pending, armed or running. *)
Theorem debounce_burst_runs_last_call_once (first : A) (more : list A) :
exists t d1 d2,
  snd (debCalls (debInit (R := R)) (first :: more))
  = repeat 0%nat (S (length more)) /\
  armed (fst (debCalls (debInit (R := R)) (first :: more)))
  = [(t, List.last more first)] /\
  debFire (fst (debCalls (debInit (R := R)) (first :: more))) t
  = Some (d1, (0%nat, List.last more first)) /\
  debSettle fn d1 0 = Some (d2, Some 0%nat) /\
  delivered d2 = [(0%nat, fn 0%nat (List.last more first))] /\
  started d2 = 1%nat /\
  pendingPromise d2 = None /\ armed d2 = [] /\ running d2 = [].
Proof.
cbn [debCalls].
change (debCall (debInit (R := R)) first)
  with ({| timeoutId := Some 1%positive; pendingPromise := Some 0%nat;
           armed := [(1%positive, first)]; running := @nil (nat * A);
           nextTimer := 2%positive; nextPromise := 1%nat; started := 0%nat;
           delivered := @nil (nat * Completion R) |}, 0%nat).
cbn iota.
match goal with
| |- context [debCalls ?d0 more] =>
    destruct (debCalls_in_burst more d0 0%nat 1%positive first
                eq_refl eq_refl eq_refl) as (t & nt & Heq)
end.
rewrite Heq. clear Heq. cbn [fst snd repeat].
cbn [running nextPromise started delivered].
exists t. unfold debFire. cbn [armed find fst]. rewrite Pos.eqb_refl.
cbn [timeoutId pendingPromise running nextTimer nextPromise started delivered app].
eexists. eexists. split; [reflexivity|]. split; [reflexivity|].
split; [reflexivity|].
unfold debSettle. cbn [running find fst Nat.eqb].
cbn [timeoutId pendingPromise armed nextTimer nextPromise started delivered].
split; [reflexivity|].
cbn [delivered started pendingPromise armed running app].
unfold clearTimer. cbn [List.filter fst Nat.eqb negb]. rewrite Pos.eqb_refl.
repeat split.
Qed.

(** X24. A call made while [fn] is under way joins the promise of the
    earlier call: that promise is settled with the outcome computed for
    the earlier arguments, and when the timer of the later call fires,
    [fn] is invoked on the later arguments but its outcome reaches no
    promise. *)
Theorem debounce_call_during_run_gets_earlier_outcome (a1 a2 : A) :
exists d1 d2 d3 d4 d5 d6,
  debCall debInit a1 = (d1, 0%nat) /\
  debFire d1 1%positive = Some (d2, (0%nat, a1)) /\
  debCall d2 a2 = (d3, 0%nat) /\
  debSettle fn d3 0 = Some (d4, Some 0%nat) /\
  delivered d4 = [(0%nat, fn 0%nat a1)] /\
  debFire d4 2%positive = Some (d5, (1%nat, a2)) /\
  debSettle fn d5 1 = Some (d6, None) /\
  delivered d6 = [(0%nat, fn 0%nat a1)] /\
  pendingPromise d6 = None.
Proof.
do 6 eexists. repeat split.
Qed.

End DebounceFacts.

End AsyncMoreFacts.
